(** * PaperlessLink: a shallow embedding of the watcher, the configuration
      parser and the upload pipeline, with the properties of the design
      document settled against it.

    Layout: Part I holds the definitions (the Go library functions the code
    calls, then [config], [watcher] and [uploader]); Part II holds the lemmas
    and theorems. *)

From Stdlib Require Import ZArith NArith Lia Ascii String.
From stdpp Require Import base option list strings gmap.

Local Open Scope string_scope.

(* ===================================================================== *)
(** * Part I.  Definitions                                                *)
(* ===================================================================== *)

(** ** Go library functions used by the program

    Go strings are byte strings; a Rocq [string] is a list of 8-bit [ascii]
    values, so the two coincide.  [filepath] is modelled for the Unix build
    (separator [/], no volume names).  [ToLower] and [TrimSpace] follow the
    ASCII path of Go's [strings] package: on bytes below 0x80 they agree with
    Go; Go's treatment of multi-byte runes (Unicode case tables and Unicode
    white space) is not embedded. *)
Module GoLib.

Definition byte_of (c : ascii) : N := N_of_ascii c.

(** [os.IsPathSeparator] on Unix. *)
Definition IsPathSeparator (c : ascii) : bool := Ascii.eqb c "/"%char.

Definition is_dot (c : ascii) : bool := Ascii.eqb c "."%char.

(** [s[i:]]. *)
Definition slice_from (i : nat) (s : string) : string :=
  substring i (String.length s - i) s.

(** [s[:i]]. *)
Definition slice_to (i : nat) (s : string) : string := substring 0 i s.

(** The loop of [filepath.Ext], counting [i] down from [len(path)-1]:
    [for i := len(path)-1; i >= 0 && !IsPathSeparator(path[i]); i--
       { if path[i] == '.' { return path[i:] } }; return ""]. *)
Fixpoint Ext_loop (path : string) (i : nat) : string :=
  match String.get i path with
  | None => ""
  | Some c =>
      if IsPathSeparator c then ""
      else if is_dot c then slice_from i path
      else match i with
           | O => ""
           | S j => Ext_loop path j
           end
  end.

Definition Ext (path : string) : string :=
  match String.length path with
  | O => ""
  | S n => Ext_loop path n
  end.

(** First loop of [filepath.Base]: strip trailing separators. *)
Fixpoint strip_trailing_seps (path : string) : string :=
  match path with
  | "" => ""
  | String c rest =>
      match strip_trailing_seps rest with
      | "" => if IsPathSeparator c then "" else String c ""
      | r => String c r
      end
  end.

(** Second loop of [filepath.Base]: the text after the last separator. *)
Fixpoint last_element (path : string) : string :=
  match path with
  | "" => ""
  | String c rest =>
      if existsb IsPathSeparator (list_ascii_of_string rest) then last_element rest
      else if IsPathSeparator c then rest
      else path
  end.

Definition Base (path : string) : string :=
  if String.eqb path "" then "."
  else
    let p := last_element (strip_trailing_seps path) in
    if String.eqb p "" then "/" else p.

(** [strings.HasPrefix], [strings.HasSuffix], [strings.TrimPrefix],
    [strings.TrimSuffix]. *)
Definition HasPrefix (s pre : string) : bool :=
  (String.length pre <=? String.length s)%nat
  && String.eqb (slice_to (String.length pre) s) pre.

Definition HasSuffix (s suf : string) : bool :=
  (String.length suf <=? String.length s)%nat
  && String.eqb (slice_from (String.length s - String.length suf) s) suf.

Definition TrimPrefix (s pre : string) : string :=
  if HasPrefix s pre then slice_from (String.length pre) s else s.

Definition TrimSuffix (s suf : string) : string :=
  if HasSuffix s suf then slice_to (String.length s - String.length suf) s else s.

(** [strings.ToLower], ASCII path: ['A'..'Z'] is moved to ['a'..'z']. *)
Definition lower_byte (c : ascii) : ascii :=
  let n := byte_of c in
  if ((65 <=? n) && (n <=? 90))%N then ascii_of_N (n + 32) else c.

Fixpoint ToLower (s : string) : string :=
  match s with
  | "" => ""
  | String c rest => String (lower_byte c) (ToLower rest)
  end.

(** The table [asciiSpace] of Go's [strings]: tab, newline, vertical tab,
    form feed, carriage return and space. *)
Definition asciiSpace (c : ascii) : bool :=
  let n := byte_of c in
  ((9 <=? n) && (n <=? 13) || (n =? 32))%N.

Fixpoint trim_left_space (s : string) : string :=
  match s with
  | "" => ""
  | String c rest => if asciiSpace c then trim_left_space rest else s
  end.

Fixpoint trim_right_space (s : string) : string :=
  match s with
  | "" => ""
  | String c rest =>
      match trim_right_space rest with
      | "" => if asciiSpace c then "" else String c ""
      | r => String c r
      end
  end.

(** [strings.TrimSpace]: first the left end, then the right end. *)
Definition TrimSpace (s : string) : string :=
  trim_right_space (trim_left_space s).

(** [strings.Split(s, sep)] for a one-byte separator: a string with [n]
    occurrences of [sep] has [n+1] components, empty ones included. *)
Fixpoint Split (s : string) (sep : ascii) : list string :=
  match s with
  | "" => [""]
  | String c rest =>
      if Ascii.eqb c sep then "" :: Split rest sep
      else match Split rest sep with
           | h :: t => String c h :: t
           | [] => [String c ""]
           end
  end.

(** [strings.TrimRight(s, "/")]. *)
Definition TrimRight_slash (s : string) : string := strip_trailing_seps s.

End GoLib.

(** ** Package [config] *)
Module config.
Import GoLib.

(** [type AfterUpload string]; the two constants are the only values
    [Validate] lets through, other strings stay representable. *)
Definition AfterUpload := string.
Definition AfterUploadDelete : AfterUpload := "delete".
Definition AfterUploadBackup : AfterUpload := "backup".

Record Config := mkConfig {
  WatchDir : string;
  PaperlessURL : string;
  Token : string;
  AllowedExts : gset string;
  RenameToUUID : bool;
  AfterUpload_ : AfterUpload;
  BackupDir : string
}.

(** [Validate]: [None] is Go's [nil], [Some msg] an error. *)
Definition Validate (c : Config) : option string :=
  if String.eqb (WatchDir c) "" then Some "flag -dir is required"
  else if String.eqb (PaperlessURL c) "" then Some "flag -url is required"
  else if String.eqb (Token c) "" then Some "flag -token is required"
  else if negb (String.eqb (AfterUpload_ c) AfterUploadDelete
                || String.eqb (AfterUpload_ c) AfterUploadBackup)
  then Some "flag -after-upload must be 'delete' or 'backup'"
  else if String.eqb (AfterUpload_ c) AfterUploadBackup && String.eqb (BackupDir c) ""
  then Some "flag -backup-dir is required when -after-upload=backup"
  else None.

(** The body of the loop of [ParseExtensions] up to the test [e != ""]. *)
Definition normalise (e : string) : string :=
  TrimPrefix (ToLower (TrimSpace e)) ".".

(** One iteration of the loop: [result[e] = struct{}{}] when [e != ""]. *)
Definition add_ext (result : gset string) (e : string) : gset string :=
  let e' := normalise e in
  if String.eqb e' "" then result else {[ e' ]} ∪ result.

(** [ParseExtensions]: a Go [map[string]struct{}] is a finite set of keys. *)
Definition ParseExtensions (raw : string) : gset string :=
  if String.eqb raw "" then ∅
  else foldl add_ext ∅ (Split raw ","%char).

End config.

(** ** Package [watcher]: the extension filter *)
Module watcher_filter.
Import GoLib.

(** [allowed]: [len(exts) == 0] lets every path through; otherwise the
    path's extension, lower-cased and without its dot, is looked up. *)
Definition allowed (path : string) (exts : gset string) : bool :=
  if (size exts =? 0)%nat then true
  else
    let ext := TrimPrefix (ToLower (Ext path)) "." in
    bool_decide (ext ∈ exts).

End watcher_filter.

(** ** Package [watcher]: the debounce loop of [Watch]

    The model covers the loop while it runs: the [stop] channel stays open
    and [fw.Events] is not closed.

    The goroutine started by [Watch] owns the two maps [timers] and [gens]
    and serves three channels in one [select].  Its state is embedded
    together with the parts of the Go runtime it talks to: the timers armed
    by [time.AfterFunc], the goroutines those timers start (each holds one
    message and waits to send it on [timerCh]) and the buffered [timerCh]. *)
Module watcher.
Import GoLib watcher_filter.
Local Open Scope Z_scope.
Local Open Scope list_scope.

(** [fsnotify.Op] is a bit set; the constants are [1 << iota]. *)
Definition Create : Z := 1.
Definition Write : Z := 2.
Definition Remove : Z := 4.
Definition Rename : Z := 8.
Definition Chmod : Z := 16.

(** [750 * time.Millisecond], in nanoseconds like [time.Duration]. *)
Definition debounceDelay : Z := 750 * 1000000.

(** Capacity of [timerCh]. *)
Definition timerCh_cap : nat := 64%nat.

(** Go's [int] on the 64-bit targets of the Makefile: [++] wraps. *)
Definition max_int : Z := 2 ^ 63 - 1.
Definition wrap_int (z : Z) : Z := (z + 2 ^ 63) mod 2 ^ 64 - 2 ^ 63.

Record debounceMsg := mkMsg { path : string; gen : Z }.

(** A timer armed by [time.AfterFunc(debounceDelay, f)]: when it expires
    the runtime starts [f], which sends [payload] on [timerCh]. *)
Record timer := mkTimer { deadline : Z; payload : debounceMsg }.

Record state := mkState {
  now : Z;                          (* monotonic clock, nanoseconds *)
  next_timer : nat;                 (* next [*time.Timer] to allocate *)
  runtime_timers : gmap nat timer;  (* timers armed and not yet expired *)
  senders : list debounceMsg;       (* timer goroutines waiting to send *)
  timerCh : list debounceMsg;       (* buffered channel, oldest first *)
  timers : gmap string nat;         (* path -> active timer *)
  gens : gmap string Z              (* path -> current generation *)
}.

Definition init : state :=
  {| now := 0; next_timer := 0%nat; runtime_timers := ∅; senders := [];
     timerCh := []; timers := ∅; gens := ∅ |}.

(** Reading a Go [map[string]int]: a missing key reads as zero. *)
Definition gen_of (st : state) (p : string) : Z := default 0 (gens st !! p).

(** What the loop does with one message of [timerCh]. *)
Inductive outcome :=
| Stale (m : debounceMsg)        (* superseded: [continue] *)
| Skipped (p : string)           (* extension not allowed *)
| Inaccessible (p : string)      (* [waitForFile] gave an error *)
| Queued (p : string).           (* [out <- msg.path] *)

Section Loop.
(** [filepath.Abs] depends on the working directory of the process;
    [None] is its error. *)
Variable Abs : string → option string.
Variable allowedExts : gset string.

Definition is_create_write (op : Z) : bool :=
  negb (Z.land op (Z.lor Create Write) =? 0).

(** [t.Stop()]: a timer still armed is disarmed; one that has expired
    is left alone. *)
Definition Stop (t : nat) (rt : gmap nat timer) : gmap nat timer := delete t rt.

(** [case event, ok := <-fw.Events]. *)
Definition onEvent (st : state) (op : Z) (name : string) : state :=
  if negb (is_create_write op) then st
  else
    match Abs name with
    | None => st
    | Some p =>
        let rt := match timers st !! p with
                  | Some t => Stop t (runtime_timers st)
                  | None => runtime_timers st
                  end in
        let g := wrap_int (gen_of st p + 1) in
        let t := next_timer st in
        {| now := now st;
           next_timer := S t;
           runtime_timers :=
             <[ t := {| deadline := now st + debounceDelay;
                        payload := {| path := p; gen := g |} |} ]> rt;
           senders := senders st;
           timerCh := timerCh st;
           timers := <[ p := t ]> (timers st);
           gens := <[ p := g ]> (gens st) |}
    end.

(** [case msg := <-timerCh], after the receive; [accessible] is whether
    [waitForFile] returned [nil]. *)
Definition onTimer (st : state) (msg : debounceMsg) (accessible : bool)
  : state * outcome :=
  if negb (gen_of st (path msg) =? gen msg)%Z then (st, Stale msg)
  else
    let st' :=
      {| now := now st; next_timer := next_timer st;
         runtime_timers := runtime_timers st;
         senders := senders st; timerCh := timerCh st;
         timers := delete (path msg) (timers st);
         gens := delete (path msg) (gens st) |} in
    if negb (allowed (path msg) allowedExts) then (st', Skipped (path msg))
    else if negb accessible then (st', Inaccessible (path msg))
    else (st', Queued (path msg)).

(** What can happen next. *)
Inductive action :=
| Advance (d : Z)                     (* [d] nanoseconds pass *)
| FsEvent (op : Z) (name : string)    (* the loop takes an event *)
| Expire (t : nat)                    (* the runtime fires timer [t] *)
| Send (i : nat)                      (* goroutine [i] sends on [timerCh] *)
| Receive (accessible : bool)         (* the loop takes a timer message *)
| FsError.                            (* the loop takes a watcher error *)

Definition set_now (st : state) (t : Z) : state :=
  {| now := t; next_timer := next_timer st;
     runtime_timers := runtime_timers st; senders := senders st;
     timerCh := timerCh st; timers := timers st; gens := gens st |}.

Definition set_runtime (st : state) (rt : gmap nat timer)
    (sn ch : list debounceMsg) : state :=
  {| now := now st; next_timer := next_timer st;
     runtime_timers := rt; senders := sn; timerCh := ch;
     timers := timers st; gens := gens st |}.

(** One step; [None] when the action cannot happen in this state: time
    does not run backwards, a timer does not fire before its deadline, a
    send needs room in the channel, a receive needs a message. *)
Definition step (st : state) (a : action) : option (state * list outcome) :=
  match a with
  | Advance d =>
      if (0 <=? d)%Z then Some (set_now st (now st + d), []) else None
  | FsEvent op name => Some (onEvent st op name, [])
  | Expire t =>
      match runtime_timers st !! t with
      | Some tm =>
          if (deadline tm <=? now st)%Z
          then Some (set_runtime st (delete t (runtime_timers st))
                       (senders st ++ [payload tm]) (timerCh st), [])
          else None
      | None => None
      end
  | Send i =>
      match senders st !! i with
      | Some m =>
          if (length (timerCh st) <? timerCh_cap)%nat
          then Some (set_runtime st (runtime_timers st)
                       (delete i (senders st)) (timerCh st ++ [m]), [])
          else None
      | None => None
      end
  | Receive accessible =>
      match timerCh st with
      | m :: rest =>
          let '(st', o) :=
            onTimer (set_runtime st (runtime_timers st) (senders st) rest)
                    m accessible in
          Some (st', [o])
      | [] => None
      end
  | FsError => Some (st, [])
  end.

Fixpoint run (st : state) (tr : list action) : option (state * list outcome) :=
  match tr with
  | [] => Some (st, [])
  | a :: tr' =>
      match step st a with
      | None => None
      | Some (st1, o1) =>
          match run st1 tr' with
          | None => None
          | Some (st2, o2) => Some (st2, o1 ++ o2)
          end
      end
  end.

(** Does this raw event reach the debounce code for path [p]? *)
Definition hits (p : string) (op : Z) (name : string) : bool :=
  is_create_write op && bool_decide (Abs name = Some p).

(** The raw events of [tr] that hit [p] each come less than
    [debounceDelay] after the one before; [last] is the time of the
    latest such event so far and [t] the current time. *)
Fixpoint spaced (p : string) (last : option Z) (t : Z) (tr : list action) : bool :=
  match tr with
  | [] => true
  | Advance d :: tr' => spaced p last (t + d) tr'
  | FsEvent op name :: tr' =>
      if hits p op name
      then match last with
           | Some t0 => (t - t0 <? debounceDelay)%Z
           | None => true
           end && spaced p (Some t) t tr'
      else spaced p last t tr'
  | _ :: tr' => spaced p last t tr'
  end.

Fixpoint count_hits (p : string) (tr : list action) : nat :=
  match tr with
  | [] => 0%nat
  | FsEvent op name :: tr' =>
      ((if hits p op name then 1 else 0) + count_hits p tr')%nat
  | _ :: tr' => count_hits p tr'
  end.

(** A ready-signal for [p]: a timer message for [p] that passed the
    generation test and was handed to the filter stage. *)
Definition is_ready_for (p : string) (o : outcome) : bool :=
  match o with
  | Stale _ => false
  | Skipped q | Inaccessible q | Queued q => bool_decide (q = p)
  end.

Fixpoint count_ready (p : string) (outs : list outcome) : nat :=
  match outs with
  | [] => 0%nat
  | o :: outs' => ((if is_ready_for p o then 1 else 0) + count_ready p outs')%nat
  end.


End Loop.
End watcher.

(** ** Package [uploader]

    The file system, the network and the fault behaviour of the operating
    system are one explicit [world] threaded through the code by a state and
    error monad.  Failures the code cannot foresee (an I/O error, a rename
    across devices, a full disk) are read from the tape [faults]: each
    system call takes the next entry, an empty tape means no fault.  The
    replies of the remote endpoint are read from the tape [net].  Calls to
    [slog] are left out. *)
Module uploader.
Import GoLib config.
Local Open Scope Z_scope.
Local Open Scope list_scope.

Definition bytes := list Byte.byte.

(** What the next system call does: it works, or it fails; for a copy,
    [written] bytes had reached the destination when it failed. *)
Inductive fault :=
| Works
| Fails (written : nat).

(** What [client.Do] gets back: a response, or a transport error. *)
Inductive reply :=
| Reply (status : Z) (body : string)
| NoReply.

(** The multipart request handed to [client.Do]. *)
Record request := mkRequest {
  endpoint : string;
  authorization : string;
  user_agent : string;
  document_filename : string;
  document_type : string;
  document_body : bytes;
  title_field : string
}.

Record world := mkWorld {
  files : gmap string bytes;   (* regular files by path *)
  faults : list fault;
  net : list reply;
  posted : list request        (* requests handed to [client.Do] *)
}.

Inductive error :=
| NotExist
| OsError
| BadURL
| TransportError
| HTTPStatus (code : Z) (body : string)
| Wrap (msg : string) (e : error).     (* [fmt.Errorf("msg: %w", err)] *)

Inductive result (A : Type) :=
| Ok (a : A)
| Err (e : error).
Arguments Ok {A} a.
Arguments Err {A} e.

Definition M (A : Type) : Type := world → result A * world.

Definition ret {A} (a : A) : M A := λ w, (Ok a, w).
Definition fail {A} (e : error) : M A := λ w, (Err e, w).
Definition bind {A B} (m : M A) (k : A → M B) : M B :=
  λ w, match m w with
       | (Ok a, w') => k a w'
       | (Err e, w') => (Err e, w')
       end.

Notation "x <- m ;; k" := (bind m (λ x, k))
  (at level 65, m at next level, right associativity).
Notation "m ;;; k" := (bind m (λ _, k))
  (at level 65, right associativity).

(** [if err != nil { return fmt.Errorf("msg: %w", err) }]. *)
Definition wrap {A} (msg : string) (m : M A) : M A :=
  λ w, match m w with
       | (Err e, w') => (Err (Wrap msg e), w')
       | ok => ok
       end.

(** [defer cleanup()] in front of [body]: [cleanup] runs when [body]
    returns, whatever it returns, and its own result is dropped. *)
Definition defer {A} (cleanup : M unit) (body : M A) : M A :=
  λ w, let '(r, w1) := body w in
       let '(_, w2) := cleanup w1 in
       (r, w2).

Definition set_files (w : world) (fs : gmap string bytes) : world :=
  {| files := fs; faults := faults w; net := net w; posted := posted w |}.

(** Take the next entry of the fault tape. *)
Definition next_fault : M fault :=
  λ w, match faults w with
       | [] => (Ok Works, w)
       | f :: rest =>
           (Ok f, {| files := files w; faults := rest; net := net w;
                     posted := posted w |})
       end.

Definition get_files : M (gmap string bytes) := λ w, (Ok (files w), w).
Definition put_files (fs : gmap string bytes) : M unit :=
  λ w, (Ok tt, set_files w fs).

(** An open file is named by its path; its bytes are read when the
    program reads them. *)
Definition os_Open (name : string) : M string :=
  f <- next_fault ;;
  fs <- get_files ;;
  match f, fs !! name with
  | Fails _, _ => fail OsError
  | Works, None => fail NotExist
  | Works, Some _ => ret name
  end.

(** [os.Create]: the file is created, or truncated when it exists. *)
Definition os_Create (name : string) : M string :=
  f <- next_fault ;;
  fs <- get_files ;;
  match f with
  | Fails _ => fail OsError
  | Works => put_files (<[ name := [] ]> fs) ;;; ret name
  end.

(** [io.Copy(out, in)] on two files, [out] freshly created. *)
Definition io_Copy (out inp : string) : M Z :=
  f <- next_fault ;;
  fs <- get_files ;;
  let data := default [] (fs !! inp) in
  match f with
  | Fails n => put_files (<[ out := take n data ]> fs) ;;; fail OsError
  | Works => put_files (<[ out := data ]> fs) ;;; ret (Z.of_nat (length data))
  end.

(** Reading a whole file into memory ([io.Copy] into the multipart body). *)
Definition read_all (inp : string) : M bytes :=
  f <- next_fault ;;
  fs <- get_files ;;
  match f with
  | Fails _ => fail OsError
  | Works => ret (default [] (fs !! inp))
  end.

Definition file_Sync (name : string) : M unit :=
  f <- next_fault ;;
  match f with
  | Fails _ => fail OsError
  | Works => ret tt
  end.

(** [f.Close()] in a [defer]: its error is dropped by the code. *)
Definition file_Close (name : string) : M unit := ret tt.

Definition os_Remove (name : string) : M unit :=
  f <- next_fault ;;
  fs <- get_files ;;
  match f, fs !! name with
  | Fails _, _ => fail OsError
  | Works, None => fail NotExist
  | Works, Some _ => put_files (delete name fs)
  end.

(** [os.Rename]: fails across devices (a fault of the tape); renaming a
    file onto itself changes nothing. *)
Definition os_Rename (src dst : string) : M unit :=
  f <- next_fault ;;
  fs <- get_files ;;
  match f, fs !! src with
  | Fails _, _ => fail OsError
  | Works, None => fail NotExist
  | Works, Some c => put_files (<[ dst := c ]> (delete src fs))
  end.

(** [client.Do(req)]: the request is recorded, the next reply is taken. *)
Definition client_Do (req : request) : M (Z * string) :=
  λ w, let w' r := {| files := files w; faults := faults w; net := r;
                      posted := posted w ++ [req] |} in
       match net w with
       | [] => (Err TransportError, w' [])
       | NoReply :: rest => (Err TransportError, w' rest)
       | Reply status body :: rest => (Ok (status, body), w' rest)
       end.

Section Pipeline.
(** Outside the repository: [filepath.Join], [os.TempDir()],
    [mime.TypeByExtension] (which reads the tables of the host) and
    whether [http.NewRequest] accepts a URL. *)
Variable Join : string → string → string.
Variable TempDir : string.
Variable TypeByExtension : string → string.
Variable valid_url : string → bool.

(** [copyFile]. *)
Definition copyFile (src dst : string) : M unit :=
  inp <- os_Open src ;;
  defer (file_Close inp)
    (out <- os_Create dst ;;
     defer (file_Close out)
       (_ <- io_Copy out inp ;;
        file_Sync out)).

(** [moveFile]: [os.Rename], and copy + delete when that fails. *)
Definition moveFile (src dst : string) : M unit :=
  λ w, match os_Rename src dst w with
       | (Ok _, w') => (Ok tt, w')
       | (Err _, w') => (copyFile src dst ;;; os_Remove src) w'
       end.

(** [postUploadAction]; a value of [AfterUpload] other than the two
    constants falls through the [switch]. *)
Definition postUploadAction (cfg : Config) (filePath : string) : M unit :=
  if String.eqb (AfterUpload_ cfg) AfterUploadDelete then
    wrap "delete after upload" (os_Remove filePath)
  else if String.eqb (AfterUpload_ cfg) AfterUploadBackup then
    let dst := Join (BackupDir cfg) (Base filePath) in
    wrap "backup after upload" (moveFile filePath dst)
  else ret tt.

Definition mime_of (filePath : string) : string :=
  let mimeType := TypeByExtension (ToLower (Ext filePath)) in
  if String.eqb mimeType "" then "application/octet-stream" else mimeType.

Definition endpoint_of (cfg : Config) : string :=
  (TrimRight_slash (PaperlessURL cfg) ++ "/api/documents/post_document/")%string.

(** The status test of [postDocument]. *)
Definition status_rejected (code : Z) : bool := (code <? 200) || (code >=? 300).

(** [postDocument].  The multipart writer fills a buffer in memory; its
    calls cannot fail and the body is kept as the fields of [request]. *)
Definition postDocument (cfg : Config) (filePath title : string) : M unit :=
  f <- wrap "open file" (os_Open filePath) ;;
  defer (file_Close f)
    (let mimeType := mime_of filePath in
     content <- wrap "write file content to form" (read_all f) ;;
     let endpoint := endpoint_of cfg in
     if negb (valid_url endpoint) then fail (Wrap "create request" BadURL)
     else
       let req := {| endpoint := endpoint;
                     authorization := ("Token " ++ Token cfg)%string;
                     user_agent := "curl/7.81.0";
                     document_filename := Base filePath;
                     document_type := mimeType;
                     document_body := content;
                     title_field := title |} in
       resp <- wrap "http post" (client_Do req) ;;
       let '(StatusCode, respBody) := resp in
       if status_rejected StatusCode
       then fail (HTTPStatus StatusCode respBody)
       else ret tt).

(** The path of the temporary copy for the identifier [u] returned by
    [uuid.New().String()]. *)
Definition uuid_path (u filePath : string) : string :=
  Join TempDir (u ++ Ext filePath)%string.

(** [stem] in [Upload]. *)
Definition stem_of (filePath : string) : string :=
  let originalName := Base filePath in
  TrimSuffix originalName (Ext originalName).

(** The deferred function of [Upload]: the error of [os.Remove] is
    logged as a warning (unless the file is already gone) and dropped. *)
Definition remove_temp (uploadPath : string) : M unit :=
  λ w, match os_Remove uploadPath w with
       | (_, w') => (Ok tt, w')
       end.

(** The part of [Upload] after the file to upload has been resolved. *)
Definition upload_and_dispose (cfg : Config) (filePath uploadPath : string) : M unit :=
  let stem := stem_of filePath in
  wrap "upload failed" (postDocument cfg uploadPath stem) ;;;
  postUploadAction cfg filePath.

(** [Upload]; [u] is the identifier drawn by [uuid.New()]. *)
Definition Upload (cfg : Config) (filePath u : string) : M unit :=
  if RenameToUUID cfg then
    let uploadPath := uuid_path u filePath in
    wrap "uuid copy" (copyFile filePath uploadPath) ;;;
    defer (remove_temp uploadPath)
      (upload_and_dispose cfg filePath uploadPath)
  else
    upload_and_dispose cfg filePath filePath.

End Pipeline.
End uploader.

(* ===================================================================== *)
(** * Part II.  Properties                                                *)
(* ===================================================================== *)

Import GoLib config watcher_filter watcher uploader.

(** ** Strings and paths *)
Module GoLibFacts.
Local Open Scope nat_scope.

Lemma substring_nil_len (n : nat) (s : string) : substring n 0 s = "".
Proof.
  revert n; induction s as [|c s IH]; intros [|n]; simpl; auto.
Qed.

Lemma substring_whole (s : string) : substring 0 (String.length s) s = s.
Proof. induction s as [|c s IH]; simpl; congruence. Qed.

Lemma substring_len (n m : nat) (s : string) :
  n + m ≤ String.length s → String.length (substring n m s) = m.
Proof.
  revert n m; induction s as [|c s IH]; intros n m H; simpl in *.
  - destruct n, m; simpl; lia.
  - destruct n as [|n].
    + destruct m as [|m]; simpl; [reflexivity|]. rewrite (IH 0 m); lia.
    + apply IH; lia.
Qed.

Lemma slice_from_len (i : nat) (s : string) :
  i ≤ String.length s → String.length (slice_from i s) = String.length s - i.
Proof. intros H. unfold slice_from. apply substring_len. lia. Qed.

Lemma append_cons (c : ascii) (a b : string) :
  (String c a ++ b)%string = String c (a ++ b)%string.
Proof. reflexivity. Qed.

(** [s[:n] + s[n:] = s]. *)
Lemma slice_split (n : nat) (s : string) :
  n ≤ String.length s → (slice_to n s ++ slice_from n s)%string = s.
Proof.
  unfold slice_to, slice_from.
  revert n; induction s as [|c s IH]; intros [|n] H; simpl in *; try lia; auto.
  - rewrite substring_whole. reflexivity.
  - rewrite append_cons. f_equal. apply IH. lia.
Qed.

Lemma has_suffix_slice (i : nat) (s : string) :
  i ≤ String.length s → HasSuffix s (slice_from i s) = true.
Proof.
  intros H. unfold HasSuffix. rewrite slice_from_len by exact H.
  apply andb_true_intro; split.
  - apply Nat.leb_le. lia.
  - replace (String.length s - (String.length s - i)) with i by lia.
    apply String.eqb_refl.
Qed.

Lemma trim_suffix_slice (i : nat) (s : string) :
  i ≤ String.length s → TrimSuffix s (slice_from i s) = slice_to i s.
Proof.
  intros H. unfold TrimSuffix. rewrite has_suffix_slice by exact H.
  rewrite slice_from_len by exact H. f_equal. lia.
Qed.

Lemma slice_from_end (s : string) : slice_from (String.length s) s = "".
Proof.
  unfold slice_from. rewrite Nat.sub_diag. apply substring_nil_len.
Qed.

(** What [Ext] returns is a slice [path[i:]] of its argument. *)
Lemma Ext_loop_slice (path : string) (i : nat) :
  ∃ k, k ≤ String.length path ∧ Ext_loop path i = slice_from k path.
Proof.
  assert (Hnil : ∃ k, k ≤ String.length path ∧ "" = slice_from k path).
  { exists (String.length path). split; [lia | symmetry; apply slice_from_end]. }
  induction i as [|i IH]; simpl.
  - destruct (String.get 0 path) as [c|] eqn:Hg; [|exact Hnil].
    destruct (IsPathSeparator c); [exact Hnil|].
    destruct (is_dot c); [|exact Hnil].
    exists 0. split; [lia | reflexivity].
  - destruct (String.get (S i) path) as [c|] eqn:Hg; [|exact Hnil].
    destruct (IsPathSeparator c); [exact Hnil|].
    destruct (is_dot c); [|exact IH].
    exists (S i). split; [|reflexivity].
    destruct (le_lt_dec (S i) (String.length path)) as [Hle|Hgt]; [exact Hle|].
    exfalso.
    assert (Hnone : String.get (S i) path = None).
    { clear -Hgt. revert Hgt. generalize (S i) as n.
      induction path as [|c' p IHp]; intros n Hn; simpl in *.
      - destruct n; reflexivity.
      - destruct n as [|n]; [lia|]. apply IHp. lia. }
    congruence.
Qed.

Lemma Ext_slice (path : string) :
  ∃ k, k ≤ String.length path ∧ Ext path = slice_from k path.
Proof.
  unfold Ext. destruct (String.length path) eqn:Hl.
  - exists 0. split; [lia|]. destruct path; [reflexivity | discriminate].
  - rewrite <- Hl. apply Ext_loop_slice.
Qed.

(** Stem and extension put the name together again. *)
Lemma stem_ext (name : string) :
  (TrimSuffix name (Ext name) ++ Ext name)%string = name.
Proof.
  destruct (Ext_slice name) as (k & Hk & ->).
  rewrite trim_suffix_slice by exact Hk. apply slice_split; exact Hk.
Qed.

Lemma has_suffix_self (s : string) : HasSuffix s s = true.
Proof.
  unfold HasSuffix. rewrite Nat.leb_refl, Nat.sub_diag. simpl.
  unfold slice_from. rewrite Nat.sub_0_r, substring_whole. apply String.eqb_refl.
Qed.

Lemma trim_suffix_self (s : string) : TrimSuffix s s = "".
Proof.
  unfold TrimSuffix. rewrite has_suffix_self, Nat.sub_diag.
  unfold slice_to. apply substring_nil_len.
Qed.

End GoLibFacts.

(** ** [ParseExtensions] and [allowed] *)
Module FilterFacts.
Import GoLibFacts.
Local Open Scope nat_scope.

(** The loop of [ParseExtensions], from any intermediate [result]. *)
Lemma foldl_add_ext (l : list string) (acc : gset string) (x : string) :
  x ∈ foldl add_ext acc l ↔
  x ∈ acc ∨ (x ≠ "" ∧ ∃ e, e ∈ l ∧ x = normalise e).
Proof.
  revert acc; induction l as [|e l IH]; intros acc; simpl.
  - split; [auto|]. intros [H|(_ & e & He & _)]; [exact H|]. inversion He.
  - rewrite IH. unfold add_ext at 1.
    destruct (String.eqb (normalise e) "") eqn:Hn.
    + apply String.eqb_eq in Hn. split.
      * intros [H|(Hx & e' & He' & ->)]; [auto|].
        right. split; [exact Hx|]. exists e'. split; [by right | reflexivity].
      * intros [H|(Hx & e' & He' & ->)]; [auto|].
        apply elem_of_cons in He' as [->|He']; [congruence|].
        right. split; [exact Hx|]. exists e'. auto.
    + apply String.eqb_neq in Hn. split.
      * intros [H|(Hx & e' & He' & ->)].
        -- apply elem_of_union in H as [H|H]; [|auto].
           apply elem_of_singleton in H as ->.
           right. split; [exact Hn|]. exists e. split; [by left | reflexivity].
        -- right. split; [exact Hx|]. exists e'. split; [by right | reflexivity].
      * intros [H|(Hx & e' & He' & ->)].
        -- left. apply elem_of_union. auto.
        -- apply elem_of_cons in He' as [->|He'].
           ++ left. apply elem_of_union. left. by apply elem_of_singleton.
           ++ right. split; [exact Hx|]. exists e'. auto.
Qed.

Lemma allowed_empty (path : string) : allowed path ∅ = true.
Proof. reflexivity. Qed.

Lemma allowed_nonempty (path : string) (exts : gset string) :
  exts ≠ ∅ →
  (allowed path exts = true ↔ TrimPrefix (ToLower (Ext path)) "." ∈ exts).
Proof.
  intros Hne. unfold allowed.
  destruct (size exts =? 0) eqn:Hs.
  - apply Nat.eqb_eq in Hs. apply size_empty_iff in Hs.
    exfalso. apply Hne. by apply leibniz_equiv.
  - apply bool_decide_eq_true.
Qed.

End FilterFacts.

(** C3, as stated, fails at its third example: the set is looked up as
    stored, so the upper-case entry [PDF] does not match the lower-cased
    extension of [a.pdf]. *)
Lemma allowed_upper_entry_counterexample :
  allowed "a.pdf" {[ "PDF" ]} = false.
Proof. vm_compute. reflexivity. Qed.

(** C3 (amended): [allowed] lets every path through when the set is empty;
    otherwise it holds exactly when the path's extension, lower-cased and
    without its leading dot, is an entry of the set as stored.  So
    [allowed "a.PNG" {pdf}] is false, [allowed "a.PDF" {pdf}] is true, and an
    upper-case request matches once it went through [ParseExtensions]. *)
Theorem allowed_spec :
  (∀ path, allowed path ∅ = true)
  ∧ allowed "a.PNG" {[ "pdf" ]} = false
  ∧ allowed "a.PDF" {[ "pdf" ]} = true
  ∧ allowed "a.pdf" {[ "PDF" ]} = false
  ∧ allowed "a.pdf" (ParseExtensions "PDF") = true
  ∧ (∀ path (exts : gset string), exts ≠ ∅ →
       (allowed path exts = true ↔ TrimPrefix (ToLower (Ext path)) "." ∈ exts)).
Proof.
  split; [exact FilterFacts.allowed_empty|].
  repeat split; try (vm_compute; reflexivity);
    apply FilterFacts.allowed_nonempty; assumption.
Qed.

(** C8: [ParseExtensions ""] is the empty set; an entry of the result is
    exactly a non-empty string obtained from a comma-separated component by
    trimming white space, lower-casing and removing one leading dot; and the
    result lists each entry once. *)
Theorem ParseExtensions_spec :
  ParseExtensions "" = ∅
  ∧ (∀ raw x,
       x ∈ ParseExtensions raw ↔
       x ≠ "" ∧ ∃ e, e ∈ Split raw ","%char
                     ∧ x = TrimPrefix (ToLower (TrimSpace e)) ".")
  ∧ (∀ raw, NoDup (elements (ParseExtensions raw)))
  ∧ ParseExtensions " PDF ,..Png,, . ,pdf" = {[ "pdf"; ".png" ]}.
Proof.
  split; [reflexivity|]. split; [|split].
  - intros raw x. unfold ParseExtensions.
    destruct (String.eqb raw "") eqn:Hraw.
    + apply String.eqb_eq in Hraw. subst raw. split.
      * intros H. by apply not_elem_of_empty in H.
      * intros (Hx & e & He & ->). simpl in He.
        apply list_elem_of_singleton in He. subst e. by vm_compute in Hx.
    + rewrite FilterFacts.foldl_add_ext. unfold normalise. split.
      * intros [H|H]; [by apply not_elem_of_empty in H | exact H].
      * intros H. right. exact H.
  - intros raw. apply NoDup_elements.
  - vm_compute. reflexivity.
Qed.

(** ** The debounce loop *)
Module WatcherFacts.
Local Open Scope Z_scope.
Local Open Scope list_scope.

Lemma wrap_int_small (z : Z) : - 2 ^ 63 ≤ z ≤ max_int → wrap_int z = z.
Proof. unfold wrap_int, max_int. intros H. rewrite Z.mod_small; lia. Qed.

Section Debounce.
Variable Abs : string → option string.
Variable allowedExts : gset string.

(** *** Generations stay far from the end of [int] *)

Definition gens_bounded (k : Z) (st : state) : Prop :=
  ∀ q g, gens st !! q = Some g → 1 ≤ g ≤ k.

Lemma gen_of_bounded k st q : 0 ≤ k → gens_bounded k st → 0 ≤ gen_of st q ≤ k.
Proof.
  intros Hk Hb. unfold gen_of. destruct (gens st !! q) as [g|] eqn:Hg; simpl.
  - apply Hb in Hg. lia.
  - lia.
Qed.

Lemma onTimer_gens st m acc st' o q :
  onTimer allowedExts st m acc = (st', o) →
  gens st' !! q = gens st !! q ∨ gens st' !! q = None.
Proof.
  unfold onTimer. intros H.
  destruct (negb (gen_of st (path m) =? gen m)); [by inversion H; auto|].
  assert (Hst : st' = {| now := now st; next_timer := next_timer st;
                         runtime_timers := runtime_timers st;
                         senders := senders st; timerCh := timerCh st;
                         timers := delete (path m) (timers st);
                         gens := delete (path m) (gens st) |}).
  { destruct (negb (allowed (path m) allowedExts)); [by inversion H|].
    destruct (negb acc); by inversion H. }
  subst st'. simpl. destruct (decide (path m = q)) as [->|Hne].
  - right. apply lookup_delete_eq.
  - left. by apply lookup_delete_ne.
Qed.

Lemma step_gens_bounded k st a st' o :
  0 ≤ k → k + 1 ≤ max_int → gens_bounded k st →
  step Abs allowedExts st a = Some (st', o) → gens_bounded (k + 1) st'.
Proof.
  intros Hk Hmax Hb Hstep.
  assert (Hmono : gens_bounded (k + 1) st).
  { intros q g Hg. apply Hb in Hg. lia. }
  destruct a as [d|op name|t|i|acc|]; simpl in Hstep.
  - destruct (0 <=? d); inversion Hstep; subst. exact Hmono.
  - inversion Hstep; subst; clear Hstep. unfold onEvent.
    destruct (negb (is_create_write op)); [exact Hmono|].
    destruct (Abs name) as [p|]; [|exact Hmono].
    intros q g. simpl. destruct (decide (p = q)) as [->|Hne].
    + rewrite lookup_insert_eq. intros [= <-].
      pose proof (gen_of_bounded k st q Hk Hb) as Hg.
      rewrite wrap_int_small; unfold max_int in *; lia.
    + rewrite lookup_insert_ne by exact Hne. apply Hmono.
  - destruct (runtime_timers st !! t) as [tm|]; [|discriminate].
    destruct (deadline tm <=? now st); inversion Hstep; subst. exact Hmono.
  - destruct (senders st !! i) as [m|]; [|discriminate].
    destruct (length (timerCh st) <? timerCh_cap)%nat; inversion Hstep; subst.
    exact Hmono.
  - destruct (timerCh st) as [|m rest]; [discriminate|].
    destruct (onTimer _ _ _ _) as [st1 o1] eqn:Hon. inversion Hstep; subst.
    intros q g Hg.
    destruct (onTimer_gens _ _ _ _ _ q Hon) as [Heq|Heq]; rewrite Heq in Hg.
    + simpl in Hg. apply Hmono in Hg. exact Hg.
    + discriminate.
  - inversion Hstep; subst. exact Hmono.
Qed.

Lemma run_gens_bounded tr : ∀ k st st' outs,
  0 ≤ k → k + Z.of_nat (length tr) ≤ max_int → gens_bounded k st →
  run Abs allowedExts st tr = Some (st', outs) →
  gens_bounded (k + Z.of_nat (length tr)) st'.
Proof.
  induction tr as [|a tr IH]; intros k st st' outs Hk Hmax Hb Hrun; simpl in *.
  - inversion Hrun; subst. intros q g Hg. apply Hb in Hg. lia.
  - destruct (step Abs allowedExts st a) as [[st1 o1]|] eqn:Hstep; [|discriminate].
    destruct (run Abs allowedExts st1 tr) as [[st2 o2]|] eqn:Hrun'; [|discriminate].
    inversion Hrun; subst.
    replace (k + Z.of_nat (S (length tr))) with ((k + 1) + Z.of_nat (length tr)) by lia.
    eapply IH; [lia | lia | | exact Hrun'].
    eapply step_gens_bounded; [exact Hk | lia | exact Hb | exact Hstep].
Qed.

Lemma init_gens_bounded : gens_bounded 0 init.
Proof. intros q g Hg. simpl in Hg. by rewrite lookup_empty in Hg. Qed.

(** A raw event that reaches the debounce code bumps the generation. *)
Lemma onEvent_gen st op name p :
  is_create_write op = true → Abs name = Some p →
  gen_of (onEvent Abs st op name) p = wrap_int (gen_of st p + 1).
Proof.
  intros Hcw Habs. unfold onEvent. rewrite Hcw, Habs. simpl.
  unfold gen_of at 1. simpl. by rewrite lookup_insert_eq.
Qed.

(** A message of another generation is dropped and nothing changes. *)
Lemma onTimer_stale st msg acc :
  gen_of st (path msg) ≠ gen msg →
  onTimer allowedExts st msg acc = (st, Stale msg).
Proof.
  intros Hne. unfold onTimer.
  destruct (gen_of st (path msg) =? gen msg) eqn:He; [|reflexivity].
  apply Z.eqb_eq in He. contradiction.
Qed.

End Debounce.
End WatcherFacts.

(** C2: in every run of the loop from its initial state (shorter than the
    range of [int]), a Create/Write event that reaches the debounce code
    leaves the generation of its path one higher than before; and in any
    state a timer message whose generation is not the current one of its
    path is dropped: no signal, no change to the state. *)
Theorem generation_discipline (Abs : string → option string) (exts : gset string) :
  (∀ tr st outs op name p,
     run Abs exts init tr = Some (st, outs) →
     (Z.of_nat (length tr) < max_int)%Z →
     is_create_write op = true → Abs name = Some p →
     gen_of (onEvent Abs st op name) p = (gen_of st p + 1)%Z
     ∧ (gen_of st p < gen_of (onEvent Abs st op name) p)%Z)
  ∧ (∀ st msg accessible,
       gen_of st (path msg) ≠ gen msg →
       onTimer exts st msg accessible = (st, Stale msg)).
Proof.
  split.
  - intros tr st outs op name p Hrun Hlen Hcw Habs.
    pose proof (WatcherFacts.run_gens_bounded Abs exts tr 0 init st outs) as Hb.
    specialize (Hb ltac:(lia) ltac:(lia) (WatcherFacts.init_gens_bounded) Hrun).
    pose proof (WatcherFacts.gen_of_bounded (0 + Z.of_nat (length tr)) st p ltac:(lia) Hb) as Hg.
    rewrite (WatcherFacts.onEvent_gen Abs st op name p Hcw Habs).
    rewrite WatcherFacts.wrap_int_small; unfold max_int in *; lia.
  - intros st msg acc Hne. by apply WatcherFacts.onTimer_stale.
Qed.

Lemma generation_discipline_witness :
  gen_of (onEvent Some init Create "/watch/a.pdf") "/watch/a.pdf" = 1%Z
  ∧ onTimer ∅ (onEvent Some (onEvent Some init Create "/watch/a.pdf") Write "/watch/a.pdf")
      {| path := "/watch/a.pdf"; gen := 1 |} true
    = (onEvent Some (onEvent Some init Create "/watch/a.pdf") Write "/watch/a.pdf",
       Stale {| path := "/watch/a.pdf"; gen := 1 |}).
Proof.
  destruct (generation_discipline Some ∅) as [Hup Hstale]. split.
  - apply (Hup [] init [] Create "/watch/a.pdf" "/watch/a.pdf");
      [reflexivity | vm_compute; reflexivity | reflexivity | reflexivity].
  - apply Hstale. vm_compute. discriminate.
Defined.

(** ** One burst of raw events on one path *)
Module BurstFacts.
Local Open Scope Z_scope.
Local Open Scope list_scope.

Section Burst.
Variable Abs : string → option string.
Variable allowedExts : gset string.
Variable p : string.

Definition for_p (l : list debounceMsg) : list debounceMsg :=
  filter (λ m, path m = p) l.

(** The messages for [p] under way, in goroutines or in the channel. *)
Definition msgs_for (st : state) : list debounceMsg :=
  for_p (senders st ++ timerCh st).

Definition no_timer (st : state) : Prop :=
  ∀ t tm, runtime_timers st !! t = Some tm → path (payload tm) ≠ p.

(** Timers are allocated in order, and the timer recorded for a path
    carries that path. *)
Definition wf (st : state) : Prop :=
  (∀ t tm, runtime_timers st !! t = Some tm → (t < next_timer st)%nat)
  ∧ (∀ q t, timers st !! q = Some t → (t < next_timer st)%nat)
  ∧ (∀ q t tm, timers st !! q = Some t → runtime_timers st !! t = Some tm →
               path (payload tm) = q).

(** Where the burst on [p] stands: [last] is the time of the latest raw
    event on [p], the number is the count of ready-signals so far. *)
Inductive phase (st : state) : option Z → nat → Prop :=
| ph_idle :
    gens st !! p = None → no_timer st → msgs_for st ≡ₚ [] →
    phase st None 0
| ph_armed t0 t g :
    timers st !! p = Some t →
    runtime_timers st !! t
      = Some {| deadline := t0 + debounceDelay;
                payload := {| path := p; gen := g |} |} →
    (∀ t' tm, runtime_timers st !! t' = Some tm → path (payload tm) = p → t' = t) →
    gens st !! p = Some g → msgs_for st ≡ₚ [] →
    phase st (Some t0) 0
| ph_flight t0 g :
    t0 + debounceDelay ≤ now st → no_timer st →
    gens st !! p = Some g → msgs_for st ≡ₚ [ {| path := p; gen := g |} ] →
    phase st (Some t0) 0
| ph_done t0 :
    t0 + debounceDelay ≤ now st → no_timer st →
    gens st !! p = None → msgs_for st ≡ₚ [] →
    phase st (Some t0) 1.

(** Two states that agree on everything [p] can see. *)
Definition same_p (st st' : state) : Prop :=
  gens st' !! p = gens st !! p
  ∧ timers st' !! p = timers st !! p
  ∧ (∀ t tm, path (payload tm) = p →
       (runtime_timers st' !! t = Some tm ↔ runtime_timers st !! t = Some tm))
  ∧ msgs_for st' ≡ₚ msgs_for st
  ∧ now st ≤ now st'.

Lemma same_p_refl st : same_p st st.
Proof. repeat split; auto; lia. Qed.

Lemma no_timer_same st st' : same_p st st' → no_timer st → no_timer st'.
Proof.
  intros (_ & _ & Hrt & _) Hno t tm Ht Hp.
  apply (Hno t tm); [|exact Hp]. by apply Hrt.
Qed.

Lemma phase_frame st st' last c : same_p st st' → phase st last c → phase st' last c.
Proof.
  intros Hs Hph. pose proof Hs as (Hg & Ht & Hrt & Hm & Hnow).
  destruct Hph as [Hgen Hno Hmsg | t0 t g Htim Hrun Huniq Hgen Hmsg
                  | t0 g Hlate Hno Hgen Hmsg | t0 Hlate Hno Hgen Hmsg].
  - apply ph_idle; [congruence | by eapply no_timer_same | by rewrite Hm].
  - eapply ph_armed with (t := t) (g := g).
    + congruence.
    + by apply Hrt.
    + intros t' tm Ht' Hp. apply (Huniq t' tm); [|exact Hp]. by apply Hrt.
    + congruence.
    + by rewrite Hm.
  - eapply ph_flight with (g := g);
      [lia | by eapply no_timer_same | congruence | by rewrite Hm].
  - apply ph_done; [lia | by eapply no_timer_same | congruence | by rewrite Hm].
Qed.

Lemma for_p_perm l l' : l ≡ₚ l' → for_p l ≡ₚ for_p l'.
Proof. intros H. unfold for_p. by rewrite H. Qed.

(** *** Steps that do not concern [p] *)

Lemma same_p_event_other st op name :
  wf st → hits Abs p op name = false → same_p st (onEvent Abs st op name).
Proof.
  intros (Hw1 & Hw2 & Hw3) Hhit. unfold hits in Hhit. unfold onEvent.
  destruct (is_create_write op); simpl in *; [|apply same_p_refl].
  destruct (Abs name) as [q|] eqn:Habs; [|apply same_p_refl].
  apply bool_decide_eq_false in Hhit.
  assert (Hqp : q ≠ p) by congruence.
  split; [|split; [|split; [|split]]]; simpl.
  - by rewrite lookup_insert_ne.
  - by rewrite lookup_insert_ne.
  - intros t tm Hp. split; intros Hl.
    + destruct (decide (next_timer st = t)) as [<-|Hne].
      * rewrite lookup_insert_eq in Hl. injection Hl as <-.
        simpl in Hp. contradiction.
      * rewrite lookup_insert_ne in Hl by exact Hne.
        destruct (timers st !! q) as [tq|]; [|exact Hl].
        unfold Stop in Hl. apply lookup_delete_Some in Hl. tauto.
    + pose proof (Hw1 _ _ Hl) as Hlt.
      rewrite lookup_insert_ne by lia.
      destruct (timers st !! q) as [tq|] eqn:Htq; [|exact Hl].
      unfold Stop. apply lookup_delete_Some. split; [|exact Hl].
      intros ->. pose proof (Hw3 _ _ _ Htq Hl). congruence.
  - reflexivity.
  - lia.
Qed.

Lemma same_p_expire_other st t tm :
  runtime_timers st !! t = Some tm → path (payload tm) ≠ p →
  same_p st (set_runtime st (delete t (runtime_timers st))
               (senders st ++ [payload tm]) (timerCh st)).
Proof.
  intros Ht Hp. split; [|split; [|split; [|split]]]; simpl; auto.
  - intros t' tm' Hp'. split; intros Hl.
    + apply lookup_delete_Some in Hl. tauto.
    + apply lookup_delete_Some. split; [|exact Hl].
      intros ->. rewrite Ht in Hl. injection Hl as <-. contradiction.
  - unfold msgs_for. simpl. unfold for_p. rewrite !filter_app.
    rewrite filter_cons, filter_nil.
    destruct (decide (path (payload tm) = p)); [contradiction|].
    by rewrite app_nil_r.
  - lia.
Qed.

Lemma same_p_send st i m :
  senders st !! i = Some m →
  same_p st (set_runtime st (runtime_timers st)
               (delete i (senders st)) (timerCh st ++ [m])).
Proof.
  intros Hi. split; [|split; [|split; [|split]]]; simpl; auto; [|lia].
  unfold msgs_for. simpl. apply for_p_perm.
  etrans; [|apply Permutation_app_tail; symmetry;
             apply (delete_Permutation _ i m Hi)].
  simpl. rewrite app_assoc. symmetry. apply Permutation_cons_append.
Qed.

Lemma same_p_receive_other st m rest acc st' o :
  timerCh st = m :: rest → path m ≠ p →
  onTimer allowedExts
    (set_runtime st (runtime_timers st) (senders st) rest) m acc = (st', o) →
  same_p st st' ∧ is_ready_for p o = false.
Proof.
  intros Hch Hp Hon.
  assert (Hmsgs : for_p (senders st ++ rest) ≡ₚ msgs_for st).
  { unfold msgs_for. rewrite Hch. unfold for_p. rewrite !filter_app, filter_cons.
    by destruct (decide (path m = p)). }
  unfold onTimer in Hon. simpl in Hon.
  destruct (negb (gen_of _ (path m) =? gen m)).
  { inversion Hon; subst. split; [|reflexivity].
    split; [|split; [|split; [|split]]]; simpl; auto; lia. }
  assert (Hst : same_p st
            {| now := now st; next_timer := next_timer st;
               runtime_timers := runtime_timers st;
               senders := senders st; timerCh := rest;
               timers := delete (path m) (timers st);
               gens := delete (path m) (gens st) |}).
  { split; [|split; [|split; [|split]]]; simpl; auto; try lia;
      by rewrite lookup_delete_ne. }
  assert (Hnr : bool_decide (path m = p) = false) by by apply bool_decide_eq_false.
  destruct (negb (allowed (path m) allowedExts)); [by inversion Hon; subst|].
  destruct (negb acc); by inversion Hon; subst.
Qed.

(** *** Steps that concern [p] *)

Lemma hits_true op name :
  hits Abs p op name = true → is_create_write op = true ∧ Abs name = Some p.
Proof.
  unfold hits. intros H. apply andb_true_iff in H as [H1 H2].
  split; [exact H1 | by apply bool_decide_eq_true in H2].
Qed.

(** A raw event on [p] stops the timer of [p], if any, and arms a new one. *)
Lemma phase_hit st op name last c :
  wf st → phase st last c → hits Abs p op name = true →
  match last with Some t0 => now st - t0 < debounceDelay | None => True end →
  phase (onEvent Abs st op name) (Some (now st)) c.
Proof.
  intros (Hw1 & Hw2 & Hw3) Hph Hhit Hgap.
  apply hits_true in Hhit as [Hcw Habs].
  unfold onEvent. rewrite Hcw, Habs. simpl.
  destruct Hph as [Hgen Hno Hmsg | t0 t g Htim Hrun Huniq Hgen Hmsg
                  | t0 g Hlate Hno Hgen Hmsg | t0 Hlate Hno Hgen Hmsg];
    [| | lia | lia].
  - eapply ph_armed with (t := next_timer st); simpl.
    + apply lookup_insert_eq.
    + apply lookup_insert_eq.
    + intros t' tm Hl Hp.
      destruct (decide (next_timer st = t')) as [<-|Hne]; [reflexivity|].
      rewrite lookup_insert_ne in Hl by exact Hne. exfalso.
      destruct (timers st !! p) as [tq|].
      * unfold Stop in Hl. apply lookup_delete_Some in Hl as [_ Hl].
        exact (Hno _ _ Hl Hp).
      * exact (Hno _ _ Hl Hp).
    + apply lookup_insert_eq.
    + exact Hmsg.
  - rewrite Htim. eapply ph_armed with (t := next_timer st); simpl.
    + apply lookup_insert_eq.
    + apply lookup_insert_eq.
    + intros t' tm Hl Hp.
      destruct (decide (next_timer st = t')) as [<-|Hne]; [reflexivity|].
      rewrite lookup_insert_ne in Hl by exact Hne. exfalso.
      unfold Stop in Hl. apply lookup_delete_Some in Hl as [Hne' Hl].
      apply Hne'. symmetry. exact (Huniq _ _ Hl Hp).
    + apply lookup_insert_eq.
    + exact Hmsg.
Qed.

(** The timer of [p] expires: its message is under way. *)
Lemma phase_expire_p st last c t tm :
  phase st last c → runtime_timers st !! t = Some tm →
  path (payload tm) = p → deadline tm ≤ now st →
  phase (set_runtime st (delete t (runtime_timers st))
           (senders st ++ [payload tm]) (timerCh st)) last c.
Proof.
  intros Hph Ht Hp Hdue.
  destruct Hph as [Hgen Hno Hmsg | t0 t1 g Htim Hrun Huniq Hgen Hmsg
                  | t0 g Hlate Hno Hgen Hmsg | t0 Hlate Hno Hgen Hmsg];
    try (exfalso; exact (Hno _ _ Ht Hp)).
  pose proof (Huniq _ _ Ht Hp) as ->.
  rewrite Hrun in Ht. injection Ht as <-. simpl in *.
  eapply ph_flight with (g := g); simpl.
  - exact Hdue.
  - intros t' tm' Hl Hp'. simpl in Hl.
    apply lookup_delete_Some in Hl as [Hne Hl].
    apply Hne. symmetry. exact (Huniq _ _ Hl Hp').
  - exact Hgen.
  - unfold msgs_for in *. simpl. unfold for_p in *.
    rewrite !filter_app in *. rewrite filter_cons, filter_nil.
    destruct (decide (path {| path := p; gen := g |} = p)) as [_|Hn];
      [|by exfalso; apply Hn].
    rewrite <- app_assoc. simpl. rewrite <- Permutation_middle.
    by rewrite Hmsg.
Qed.

(** The message of [p] is received: it is current, so it is the signal. *)
Lemma phase_receive_p st last c m rest acc st' o :
  phase st last c → timerCh st = m :: rest → path m = p →
  onTimer allowedExts
    (set_runtime st (runtime_timers st) (senders st) rest) m acc = (st', o) →
  phase st' last (c + count_ready p [o]).
Proof.
  intros Hph Hch Hp Hon.
  assert (Hmsgs : msgs_for st ≡ₚ m :: for_p (senders st ++ rest)).
  { unfold msgs_for. rewrite Hch. unfold for_p. rewrite !filter_app, filter_cons.
    destruct (decide (path m = p)); [|contradiction].
    by rewrite <- Permutation_middle. }
  destruct Hph as [Hgen Hno Hmsg | t0 t1 g Htim Hrun Huniq Hgen Hmsg
                  | t0 g Hlate Hno Hgen Hmsg | t0 Hlate Hno Hgen Hmsg];
    rewrite Hmsgs in Hmsg;
    try (exfalso; symmetry in Hmsg; exact (Permutation_nil_cons Hmsg)).
  apply Permutation_singleton_r in Hmsg. injection Hmsg as Hm Hrest.
  unfold onTimer in Hon. simpl in Hon.
  assert (Hcur : (gen_of
            {| now := now st; next_timer := next_timer st;
               runtime_timers := runtime_timers st; senders := senders st;
               timerCh := rest; timers := timers st; gens := gens st |}
            (path m) =? gen m) = true).
  { unfold gen_of. simpl. rewrite Hp, Hgen. simpl. subst m. simpl.
    apply Z.eqb_refl. }
  unfold set_runtime in Hon. rewrite Hcur in Hon. simpl in Hon.
  assert (Hready : ∀ o', (o' = Skipped (path m) ∨ o' = Inaccessible (path m)
                          ∨ o' = Queued (path m)) →
                         (0 + count_ready p [o'] = 1)%nat).
  { intros o' [-> | [-> | ->]]; simpl; rewrite bool_decide_eq_true_2; auto. }
  assert (Hdone : ∀ o', (o' = Skipped (path m) ∨ o' = Inaccessible (path m)
                          ∨ o' = Queued (path m)) →
            phase
              {| now := now st; next_timer := next_timer st;
                 runtime_timers := runtime_timers st;
                 senders := senders st; timerCh := rest;
                 timers := delete (path m) (timers st);
                 gens := delete (path m) (gens st) |}
              (Some t0) (0 + count_ready p [o'])).
  { intros o' Ho'. rewrite (Hready o' Ho'). apply ph_done; simpl.
    - exact Hlate.
    - exact Hno.
    - rewrite Hp. apply lookup_delete_eq.
    - unfold msgs_for. simpl. by rewrite Hrest. }
  destruct (negb (allowed (path m) allowedExts)).
  { injection Hon as <- <-. apply Hdone. auto. }
  destruct (negb acc); injection Hon as <- <-; apply Hdone; auto.
Qed.

(** *** Well-formedness is kept by every step *)

Lemma step_wf st a st' o :
  wf st → step Abs allowedExts st a = Some (st', o) → wf st'.
Proof.
  intros Hwf Hstep. pose proof Hwf as (Hw1 & Hw2 & Hw3).
  destruct a as [d|op name|t|i|acc|]; simpl in Hstep.
  - destruct (0 <=? d); inversion Hstep; subst. exact Hwf.
  - inversion Hstep; subst; clear Hstep. unfold onEvent.
    destruct (negb (is_create_write op)); [exact Hwf|].
    destruct (Abs name) as [q|]; [|exact Hwf].
    assert (Hrt : ∀ t tm,
              match timers st !! q with
              | Some t0 => Stop t0 (runtime_timers st)
              | None => runtime_timers st
              end !! t = Some tm → runtime_timers st !! t = Some tm).
    { intros t tm Hl. destruct (timers st !! q); [|exact Hl].
      unfold Stop in Hl. by apply lookup_delete_Some in Hl as [_ Hl]. }
    split; [|split]; simpl.
    + intros t tm Hl. destruct (decide (next_timer st = t)) as [<-|Hne]; [lia|].
      rewrite lookup_insert_ne in Hl by exact Hne.
      apply Hrt, Hw1 in Hl. lia.
    + intros q' t Hl. destruct (decide (q = q')) as [<-|Hne].
      * rewrite lookup_insert_eq in Hl. injection Hl as <-. lia.
      * rewrite lookup_insert_ne in Hl by exact Hne. apply Hw2 in Hl. lia.
    + intros q' t tm Hq Hl. destruct (decide (q = q')) as [<-|Hne].
      * rewrite lookup_insert_eq in Hq. injection Hq as <-.
        rewrite lookup_insert_eq in Hl. by injection Hl as <-.
      * rewrite lookup_insert_ne in Hq by exact Hne.
        pose proof (Hw2 _ _ Hq) as Hlt.
        rewrite lookup_insert_ne in Hl by lia.
        apply Hrt in Hl. exact (Hw3 _ _ _ Hq Hl).
  - destruct (runtime_timers st !! t) as [tm|]; [|discriminate].
    destruct (deadline tm <=? now st); inversion Hstep; subst; clear Hstep.
    split; [|split]; simpl.
    + intros t' tm' Hl. apply lookup_delete_Some in Hl as [_ Hl]. eauto.
    + exact Hw2.
    + intros q t' tm' Hq Hl. apply lookup_delete_Some in Hl as [_ Hl]. eauto.
  - destruct (senders st !! i) as [m|]; [|discriminate].
    destruct (length (timerCh st) <? timerCh_cap)%nat; inversion Hstep; subst.
    exact Hwf.
  - destruct (timerCh st) as [|m rest]; [discriminate|].
    destruct (onTimer _ _ _ _) as [st1 o1] eqn:Hon. inversion Hstep; subst.
    unfold onTimer in Hon. simpl in Hon.
    destruct (negb (gen_of _ (path m) =? gen m)).
    { injection Hon as <- <-. exact Hwf. }
    assert (Hd : wf {| now := now st; next_timer := next_timer st;
                       runtime_timers := runtime_timers st;
                       senders := senders st; timerCh := rest;
                       timers := delete (path m) (timers st);
                       gens := delete (path m) (gens st) |}).
    { split; [|split]; simpl.
      - exact Hw1.
      - intros q t Hl. apply lookup_delete_Some in Hl as [_ Hl]. eauto.
      - intros q t tm Hq Hl. apply lookup_delete_Some in Hq as [_ Hq]. eauto. }
    destruct (negb (allowed (path m) allowedExts)).
    { by injection Hon as <- <-. }
    destruct (negb acc); by injection Hon as <- <-.
  - inversion Hstep; subst. exact Hwf.
Qed.

Lemma init_wf : wf init.
Proof.
  split; [|split]; simpl; intros; by rewrite lookup_empty in *.
Qed.

Lemma init_phase : phase init None 0.
Proof.
  apply ph_idle; simpl.
  - apply lookup_empty.
  - intros t tm Hl. simpl in Hl. by rewrite lookup_empty in Hl.
  - reflexivity.
Qed.

(** *** The whole run *)

Lemma count_ready_app o1 o2 :
  count_ready p (o1 ++ o2) = (count_ready p o1 + count_ready p o2)%nat.
Proof. induction o1 as [|o o1 IH]; simpl; [reflexivity | rewrite IH; lia]. Qed.

Lemma onEvent_now st op name : now (onEvent Abs st op name) = now st.
Proof.
  unfold onEvent. destruct (negb (is_create_write op)); [reflexivity|].
  destruct (Abs name); reflexivity.
Qed.

Lemma onTimer_now st m acc st' o :
  onTimer allowedExts st m acc = (st', o) → now st' = now st.
Proof.
  unfold onTimer. intros H.
  destruct (negb (gen_of st (path m) =? gen m)); [by injection H as <- <-|].
  destruct (negb (allowed (path m) allowedExts)); [by injection H as <- <-|].
  destruct (negb acc); by injection H as <- <-.
Qed.



End Burst.
End BurstFacts.

(** The scenario of the design document: raw events at 0 ms and 100 ms on
    one file, then silence; the second timer expires at 850 ms. *)
Definition burst_trace : list action :=
  [FsEvent Create "/watch/doc.pdf"; Advance 100000000;
   FsEvent Write "/watch/doc.pdf"; Advance 750000000;
   Expire 1; Send 0; Receive true].

Definition burst_final : state :=
  {| now := 850000000; next_timer := 2; runtime_timers := ∅; senders := [];
     timerCh := []; timers := ∅; gens := ∅ |}.

Example burst_run :
  run Some ∅ init burst_trace = Some (burst_final, [Queued "/watch/doc.pdf"]).
Proof. vm_compute. reflexivity. Qed.

(** The first timer was stopped: it cannot fire, at 750 ms or later. *)
Example burst_first_timer_stopped :
  run Some ∅ init
    [FsEvent Create "/watch/doc.pdf"; Advance 100000000;
     FsEvent Write "/watch/doc.pdf"; Advance 750000000; Expire 0] = None.
Proof. vm_compute. reflexivity. Qed.

(** The second timer cannot fire at 750 ms. *)
Example burst_not_early :
  run Some ∅ init
    [FsEvent Create "/watch/doc.pdf"; Advance 100000000;
     FsEvent Write "/watch/doc.pdf"; Advance 650000000; Expire 1] = None.
Proof. vm_compute. reflexivity. Qed.



(** ** The upload pipeline *)
Module UploaderFacts.
Local Open Scope Z_scope.
Local Open Scope list_scope.

(** No network activity between two worlds. *)
Definition io_same (w w' : world) : Prop :=
  net w' = net w ∧ posted w' = posted w.

(** Every path but [p] holds what it held. *)
Definition files_same_but (p : string) (w w' : world) : Prop :=
  ∀ q, q ≠ p → files w' !! q = files w !! q.

Lemma io_same_refl w : io_same w w.
Proof. by split. Qed.

Lemma io_same_trans w1 w2 w3 : io_same w1 w2 → io_same w2 w3 → io_same w1 w3.
Proof. intros [H1 H2] [H3 H4]. split; congruence. Qed.

(** Unfold one system call on a world given by its fields. *)
Ltac prim :=
  unfold os_Open, os_Create, io_Copy, read_all, file_Sync, file_Close,
    os_Remove, os_Rename, bind, next_fault, get_files, put_files, set_files,
    fail, ret; simpl.

Ltac tape ft := destruct ft as [|[|?] ft]; simpl.

Lemma os_Open_spec name w r w' :
  os_Open name w = (r, w') →
  files w' = files w ∧ io_same w w'
  ∧ (∀ h, r = Ok h → h = name ∧ is_Some (files w !! name)).
Proof.
  destruct w as [fs ft nt ps]. prim. tape ft;
    destruct (fs !! name) eqn:Hl; simpl; intros [= <- <-]; simpl;
    (split; [reflexivity|]); (split; [by split|]);
    intros h [=]; subst; eauto.
Qed.

Lemma os_Create_spec name w r w' :
  os_Create name w = (r, w') →
  io_same w w' ∧ files_same_but name w w'
  ∧ (is_Some (files w !! name) → is_Some (files w' !! name))
  ∧ (∀ h, r = Ok h → h = name ∧ files w' !! name = Some []).
Proof.
  destruct w as [fs ft nt ps]. prim. tape ft; intros [= <- <-]; simpl;
    (split; [by split|]);
    (split; [intros q Hq; simpl; rewrite ?lookup_insert_ne by congruence; reflexivity|]);
    (split; [try (intros _; rewrite lookup_insert_eq); eauto|]);
    intros h [=]; subst; by rewrite ?lookup_insert_eq.
Qed.

Lemma io_Copy_spec out inp w r w' :
  io_Copy out inp w = (r, w') →
  io_same w w' ∧ files_same_but out w w'
  ∧ is_Some (files w' !! out)
  ∧ (∀ n, r = Ok n → files w' !! out = Some (default [] (files w !! inp))).
Proof.
  destruct w as [fs ft nt ps]. prim. tape ft; intros [= <- <-]; simpl;
    (split; [by split|]);
    (split; [intros q Hq; simpl; rewrite ?lookup_insert_ne by congruence; reflexivity|]);
    (split; [rewrite lookup_insert_eq; eauto|]);
    intros k [=]; subst; by rewrite ?lookup_insert_eq.
Qed.

Lemma file_Sync_spec name w r w' :
  file_Sync name w = (r, w') → files w' = files w ∧ io_same w w'.
Proof.
  destruct w as [fs ft nt ps]. prim. tape ft; intros [= <- <-]; simpl;
    (split; [reflexivity|]); by split.
Qed.

Lemma os_Remove_spec name w r w' :
  os_Remove name w = (r, w') →
  io_same w w' ∧ files_same_but name w w'
  ∧ (r = Ok tt → is_Some (files w !! name) ∧ files w' !! name = None)
  ∧ (r = Err NotExist → files w' !! name = None)
  ∧ (∀ e, r = Err e → files w' = files w).
Proof.
  destruct w as [fs ft nt ps]. prim. tape ft;
    destruct (fs !! name) eqn:Hl; simpl; intros [= <- <-]; simpl;
    (split; [by split|]);
    (split; [intros q Hq; simpl; rewrite ?lookup_delete_ne by congruence; reflexivity|]);
    (split; [intros Hr; try discriminate Hr;
             (split; [eauto | apply lookup_delete_eq])|]);
    (split; [intros Hr; try discriminate Hr; assumption|]);
    intros e Hr; try discriminate Hr; reflexivity.
Qed.

Lemma os_Rename_spec src dst w r w' :
  os_Rename src dst w = (r, w') →
  io_same w w'
  ∧ (∀ q, q ≠ src → q ≠ dst → files w' !! q = files w !! q)
  ∧ (r = Ok tt →
     ∃ c, files w !! src = Some c ∧ files w' !! dst = Some c
          ∧ (src ≠ dst → files w' !! src = None))
  ∧ (∀ e, r = Err e → files w' = files w).
Proof.
  destruct w as [fs ft nt ps]. prim. tape ft;
    destruct (fs !! src) as [c|] eqn:Hl; simpl; intros [= <- <-]; simpl;
    (split; [by split|]);
    (split; [intros q Hq1 Hq2;
             rewrite ?lookup_insert_ne, ?lookup_delete_ne by congruence;
             reflexivity|]);
    (split; [intros Hr; try discriminate Hr; exists c;
             (split; [first [exact Hl | reflexivity]|]);
             (split; [apply lookup_insert_eq|]);
             intros Hne; rewrite lookup_insert_ne by congruence;
             apply lookup_delete_eq|]);
    intros e Hr; try discriminate Hr; reflexivity.
Qed.

(** *** The control structure *)

Lemma bind_inv {A B} (m : M A) (k : A → M B) w r w' :
  bind m k w = (r, w') →
  (∃ a w1, m w = (Ok a, w1) ∧ k a w1 = (r, w'))
  ∨ (∃ e, m w = (Err e, w') ∧ r = Err e).
Proof.
  unfold bind. destruct (m w) as [[a|e] w1]; intros H.
  - left. eauto.
  - right. injection H as <- <-. eauto.
Qed.

Lemma wrap_inv {A} msg (m : M A) w r w' :
  wrap msg m w = (r, w') →
  (∃ a, m w = (Ok a, w') ∧ r = Ok a)
  ∨ (∃ e, m w = (Err e, w') ∧ r = Err (Wrap msg e)).
Proof.
  unfold wrap. destruct (m w) as [[a|e] w1]; intros [= <- <-]; eauto.
Qed.

Lemma defer_inv {A} (c : M unit) (b : M A) w r w' :
  defer c b w = (r, w') → ∃ w1 rc, b w = (r, w1) ∧ c w1 = (rc, w').
Proof.
  unfold defer. destruct (b w) as [r1 w1]. destruct (c w1) as [rc w2] eqn:Hc.
  intros [= <- <-]. eauto.
Qed.

Section Pipeline.
Variable Join : string → string → string.
Variable TempDir : string.
Variable TypeByExtension : string → string.
Variable valid_url : string → bool.

Local Abbreviation postDocument := (postDocument TypeByExtension valid_url).
Local Abbreviation postUploadAction := (postUploadAction Join).
Local Abbreviation upload_and_dispose :=
  (upload_and_dispose Join TypeByExtension valid_url).
Local Abbreviation Upload := (Upload Join TempDir TypeByExtension valid_url).
Local Abbreviation uuid_path := (uuid_path Join TempDir).

(** *** [copyFile] *)

Lemma copyFile_spec src dst w r w' :
  copyFile src dst w = (r, w') →
  io_same w w' ∧ files_same_but dst w w'
  ∧ (is_Some (files w !! src) → is_Some (files w' !! src))
  ∧ (r = Ok tt → src ≠ dst →
     ∃ c, files w !! src = Some c ∧ files w' !! dst = Some c).
Proof.
  unfold copyFile. intros H.
  apply bind_inv in H as [(inp & w1 & Hopen & H)|(e & Hopen & ->)].
  2:{ apply os_Open_spec in Hopen as (Hf & Hio & _).
      split; [exact Hio|]. split; [intros q _; by rewrite Hf|].
      split; [by rewrite Hf | discriminate]. }
  apply os_Open_spec in Hopen as (Hf1 & Hio1 & Hh).
  destruct (Hh inp eq_refl) as [-> Hsrc].
  apply defer_inv in H as (w2 & rc & H & Hclose).
  injection Hclose as _ <-.
  apply bind_inv in H as [(out & w3 & Hcreate & H)|(e & Hcreate & ->)].
  2:{ apply os_Create_spec in Hcreate as (Hio & Hsame & Hkeep & _).
      split; [by eapply io_same_trans|].
      split; [intros q Hq; rewrite Hsame by exact Hq; by rewrite Hf1|].
      split; [|discriminate].
      intros Hs. destruct (decide (src = dst)) as [->|Hne].
      - apply Hkeep. by rewrite Hf1.
      - rewrite Hsame by exact Hne. by rewrite Hf1. }
  apply os_Create_spec in Hcreate as (Hio3 & Hsame3 & Hkeep3 & Hh3).
  destruct (Hh3 out eq_refl) as [-> Hdst3].
  apply defer_inv in H as (w4 & rc' & H & Hclose).
  injection Hclose as _ <-.
  assert (Hcopy_frame : ∀ rr w5, io_Copy dst src w3 = (rr, w5) →
            io_same w w5 ∧ files_same_but dst w w5
            ∧ (is_Some (files w !! src) → is_Some (files w5 !! src))
            ∧ (∀ n, rr = Ok n → src ≠ dst →
               ∃ c, files w !! src = Some c ∧ files w5 !! dst = Some c)).
  { intros rr w5 Hcopy.
    apply io_Copy_spec in Hcopy as (Hio5 & Hsame5 & Hex5 & Hok5).
    split; [eapply io_same_trans; [|exact Hio5]; by eapply io_same_trans|].
    split; [intros q Hq; rewrite Hsame5, Hsame3 by exact Hq; by rewrite Hf1|].
    split.
    - intros Hs. destruct (decide (src = dst)) as [->|Hne]; [exact Hex5|].
      rewrite Hsame5, Hsame3 by exact Hne. by rewrite Hf1.
    - intros n Hn Hne. destruct Hsrc as [c Hc]. exists c. split; [exact Hc|].
      etrans; [exact (Hok5 n Hn)|]. rewrite Hsame3 by exact Hne.
      rewrite Hf1, Hc. reflexivity. }
  apply bind_inv in H as [(n & w5 & Hcopy & H)|(e & Hcopy & ->)].
  2:{ destruct (Hcopy_frame _ _ Hcopy) as (? & ? & ? & _).
      repeat (split; [assumption|]). discriminate. }
  destruct (Hcopy_frame _ _ Hcopy) as (Hio5 & Hsame5 & Hkeep5 & Hok5).
  apply file_Sync_spec in H as (Hf6 & Hio6).
  split; [by eapply io_same_trans|].
  split; [intros q Hq; rewrite Hf6; by apply Hsame5|].
  split; [rewrite Hf6; exact Hkeep5|].
  intros _ Hne. rewrite Hf6. by apply (Hok5 n).
Qed.

(** *** [moveFile] *)

Lemma moveFile_inv src dst w r w' :
  moveFile src dst w = (r, w') →
  (os_Rename src dst w = (Ok tt, w') ∧ r = Ok tt)
  ∨ (∃ e w1, os_Rename src dst w = (Err e, w1)
       ∧ ((∃ e', copyFile src dst w1 = (Err e', w') ∧ r = Err e')
          ∨ (∃ w2, copyFile src dst w1 = (Ok tt, w2)
                   ∧ os_Remove src w2 = (r, w')))).
Proof.
  unfold moveFile. destruct (os_Rename src dst w) as [[[]|e] w1] eqn:Hren.
  - intros [= <- <-]. left. auto.
  - intros H. right. exists e, w1. split; [reflexivity|].
    apply bind_inv in H as [([] & w2 & Hcopy & H)|(e' & Hcopy & ->)]; eauto.
Qed.

Lemma moveFile_spec src dst w r w' :
  moveFile src dst w = (r, w') →
  io_same w w'
  ∧ (∀ q, q ≠ src → q ≠ dst → files w' !! q = files w !! q)
  ∧ (r = Ok tt → src ≠ dst →
     ∃ c, files w !! src = Some c ∧ files w' !! dst = Some c
          ∧ files w' !! src = None).
Proof.
  intros H.
  apply moveFile_inv in H
    as [[Hren ->]|(e & w1 & Hren & [(e' & Hcopy & ->)|(w2 & Hcopy & Hrm)])].
  - apply os_Rename_spec in Hren as (Hio & Hsame & Hok & _).
    split; [exact Hio|]. split; [exact Hsame|].
    intros _ Hne. destruct (Hok eq_refl) as (c & Hc & Hd & Hs).
    exists c. split; [exact Hc|]. split; [exact Hd | exact (Hs Hne)].
  - apply os_Rename_spec in Hren as (Hio & _ & _ & Hf).
    apply copyFile_spec in Hcopy as (Hio2 & Hsame2 & _).
    split; [by eapply io_same_trans|].
    split; [|discriminate].
    intros q _ Hq. rewrite Hsame2 by exact Hq. by rewrite (Hf e eq_refl).
  - apply os_Rename_spec in Hren as (Hio & _ & _ & Hf).
    apply copyFile_spec in Hcopy as (Hio2 & Hsame2 & _ & Hok2).
    apply os_Remove_spec in Hrm as (Hio3 & Hsame3 & Hok3 & _).
    split; [eapply io_same_trans; [|exact Hio3]; by eapply io_same_trans|].
    split.
    + intros q Hq1 Hq2. rewrite Hsame3, Hsame2 by assumption. by rewrite (Hf e eq_refl).
    + intros Hr Hne. destruct (Hok2 eq_refl Hne) as (c & Hc & Hd).
      destruct (Hok3 Hr) as [_ Hgone].
      exists c. rewrite <- (Hf e eq_refl). split; [exact Hc|]. split; [|exact Hgone].
      rewrite Hsame3 by congruence. exact Hd.
Qed.

(** *** [postDocument] *)

Lemma status_rejected_false code :
  status_rejected code = false ↔ 200 ≤ code < 300.
Proof.
  unfold status_rejected.
  rewrite orb_false_iff, Z.ltb_ge, Z.geb_leb, Z.leb_gt. lia.
Qed.

Ltac post_cases fs ft nt fp st :=
  unfold postDocument, uploader.postDocument, wrap, defer, client_Do;
  prim; tape ft;
  [ destruct (fs !! fp) eqn:Hfp; simpl
  | destruct (fs !! fp) eqn:Hfp; simpl; [tape ft|]
  | destruct (fs !! fp) eqn:Hfp; simpl ];
  try (destruct (valid_url _); simpl);
  try (destruct nt as [|[st ?|] nt]; simpl);
  try (destruct (status_rejected st) eqn:Hst; simpl);
  intros [= <- <-]; simpl.

Lemma postDocument_files cfg fp title w r w' :
  postDocument cfg fp title w = (r, w') → files w' = files w.
Proof.
  destruct w as [fs ft nt ps]. post_cases fs ft nt fp st; reflexivity.
Qed.

(** At most one request is sent; it carries the title it was given and
    the base name of the file it was given. *)
Lemma postDocument_posted cfg fp title w r w' :
  postDocument cfg fp title w = (r, w') →
  posted w' = posted w
  ∨ ∃ req, posted w' = posted w ++ [req]
           ∧ title_field req = title
           ∧ document_filename req = Base fp.
Proof.
  destruct w as [fs ft nt ps]. post_cases fs ft nt fp st;
    first [left; reflexivity | right; eexists; split; [reflexivity|]; by split].
Qed.

Lemma app_singleton_neq {A} (l : list A) (x : A) : l ++ [x] ≠ l.
Proof.
  intros H. apply (f_equal length) in H. rewrite length_app in H.
  simpl in H. lia.
Qed.

(** [nil] is returned only for a reply with a status in [200,300). *)
Lemma postDocument_ok cfg fp title w w' :
  postDocument cfg fp title w = (Ok tt, w') →
  is_Some (files w !! fp)
  ∧ ∃ status body rest,
      net w = Reply status body :: rest ∧ 200 ≤ status < 300.
Proof.
  destruct w as [fs ft nt ps].
  unfold postDocument, uploader.postDocument, wrap, defer, client_Do.
  prim. tape ft;
    [ destruct (fs !! fp) eqn:Hfp; simpl
    | destruct (fs !! fp) eqn:Hfp; simpl; [tape ft|]
    | destruct (fs !! fp) eqn:Hfp; simpl ];
    try (destruct (valid_url _); simpl);
    try (destruct nt as [|[st ?|] nt]; simpl);
    try (destruct (status_rejected st) eqn:Hst; simpl);
    intros [=]; subst;
    (split; [eauto|]); do 3 eexists; (split; [reflexivity|]);
    by apply status_rejected_false.
Qed.

(** Once the request went out and a response came back, the result is
    decided by the status alone. *)
Lemma postDocument_status cfg fp title w r w' status body rest :
  postDocument cfg fp title w = (r, w') →
  net w = Reply status body :: rest →
  posted w' ≠ posted w →
  (r = Ok tt ↔ 200 ≤ status < 300).
Proof.
  destruct w as [fs ft nt ps]. simpl. intros H Hnet. subst nt. revert H.
  unfold postDocument, uploader.postDocument, wrap, defer, client_Do.
  prim. tape ft;
    [ destruct (fs !! fp) eqn:Hfp; simpl
    | destruct (fs !! fp) eqn:Hfp; simpl; [tape ft|]
    | destruct (fs !! fp) eqn:Hfp; simpl ];
    try (destruct (valid_url _); simpl);
    try (destruct (status_rejected status) eqn:Hst; simpl);
    intros [= <- <-]; simpl; intros Hp; try (by exfalso; apply Hp).
  all: rewrite <- status_rejected_false, Hst; split; intros [=]; reflexivity.
Qed.

(** *** [postUploadAction], [Upload] *)

Lemma postUploadAction_io cfg fp w r w' :
  postUploadAction cfg fp w = (r, w') → io_same w w'.
Proof.
  unfold postUploadAction, uploader.postUploadAction.
  destruct (String.eqb (AfterUpload_ cfg) AfterUploadDelete).
  { intros H. apply wrap_inv in H as [(a & H & _)|(e & H & _)];
      by apply os_Remove_spec in H as (Hio & _). }
  destruct (String.eqb (AfterUpload_ cfg) AfterUploadBackup).
  { intros H. apply wrap_inv in H as [(a & H & _)|(e & H & _)];
      by apply moveFile_spec in H as (Hio & _). }
  intros [= <- <-]. apply io_same_refl.
Qed.

Lemma upload_and_dispose_inv cfg fp up w r w' :
  upload_and_dispose cfg fp up w = (r, w') →
  (∃ e, postDocument cfg up (stem_of fp) w = (Err e, w')
        ∧ r = Err (Wrap "upload failed" e))
  ∨ (∃ w1, postDocument cfg up (stem_of fp) w = (Ok tt, w1)
           ∧ postUploadAction cfg fp w1 = (r, w')).
Proof.
  unfold upload_and_dispose, uploader.upload_and_dispose. intros H.
  apply bind_inv in H as [([] & w1 & Hpost & H)|(e & Hpost & ->)].
  - right. exists w1. split; [|exact H].
    by apply wrap_inv in Hpost as [(a & Hp & _)|(e & _ & [=])]; destruct a.
  - left. apply wrap_inv in Hpost as [(a & _ & [=])|(e' & Hp & [= ->])].
    eauto.
Qed.

Lemma Upload_inv cfg fp u w r w' :
  Upload cfg fp u w = (r, w') →
  (RenameToUUID cfg = false ∧ upload_and_dispose cfg fp fp w = (r, w'))
  ∨ (RenameToUUID cfg = true
     ∧ ((∃ e, copyFile fp (uuid_path u fp) w = (Err e, w')
              ∧ r = Err (Wrap "uuid copy" e))
        ∨ (∃ w1 w2 rr,
             copyFile fp (uuid_path u fp) w = (Ok tt, w1)
             ∧ upload_and_dispose cfg fp (uuid_path u fp) w1 = (r, w2)
             ∧ os_Remove (uuid_path u fp) w2 = (rr, w')))).
Proof.
  unfold Upload, uploader.Upload. destruct (RenameToUUID cfg).
  - intros H. right. split; [reflexivity|].
    apply bind_inv in H as [([] & w1 & Hcopy & H)|(e & Hcopy & ->)].
    + right. apply wrap_inv in Hcopy as [(a & Hc & _)|(e & _ & [=])].
      destruct a. apply defer_inv in H as (w2 & rc & Hbody & Hrm).
      unfold remove_temp in Hrm.
      destruct (os_Remove (uuid_path u fp) w2) as [rr w3] eqn:Hr.
      injection Hrm as _ <-. exists w1, w2, rr. auto.
    + left. apply wrap_inv in Hcopy as [(a & _ & [=])|(e' & Hc & [= ->])].
      eauto.
  - intros H. left. auto.
Qed.

(** What [Upload] sends: at most one request, titled with the stem of
    the original name, its document named after the file uploaded. *)
Lemma Upload_posted cfg fp u w r w' :
  Upload cfg fp u w = (r, w') →
  posted w' = posted w
  ∨ ∃ req, posted w' = posted w ++ [req]
           ∧ title_field req = stem_of fp
           ∧ document_filename req
             = Base (if RenameToUUID cfg then uuid_path u fp else fp).
Proof.
  assert (Hbody : ∀ up w0 r0 w0',
            upload_and_dispose cfg fp up w0 = (r0, w0') →
            posted w0' = posted w0
            ∨ ∃ req, posted w0' = posted w0 ++ [req]
                     ∧ title_field req = stem_of fp
                     ∧ document_filename req = Base up).
  { intros up w0 r0 w0' H.
    apply upload_and_dispose_inv in H as [(e & Hp & _)|(w1 & Hp & Hact)].
    - by apply postDocument_posted in Hp.
    - apply postUploadAction_io in Hact as [_ Hps]. rewrite Hps.
      by apply postDocument_posted in Hp. }
  intros H. apply Upload_inv in H
    as [[-> H]|[-> [(e & Hc & _)|(w1 & w2 & rr & Hc & Hb & Hrm)]]].
  - by apply Hbody in H.
  - left. by apply copyFile_spec in Hc as ([_ ?] & _).
  - apply copyFile_spec in Hc as ([_ Hps1] & _).
    apply os_Remove_spec in Hrm as ([_ Hps2] & _).
    rewrite Hps2, <- Hps1. by apply Hbody in Hb.
Qed.

End Pipeline.
End UploaderFacts.

(** ** The claims about the upload pipeline *)

(** A concrete environment for the examples: [Join] glues with a slash,
    the MIME table is empty, every URL is accepted. *)
Definition join_slash (dir name : string) : string := (dir ++ "/" ++ name)%string.
Definition no_mime (ext : string) : string := "".
Definition any_url (u : string) : bool := true.

Definition demo_Upload := Upload join_slash "/tmp" no_mime any_url.

Definition demo_cfg (rename : bool) (after : AfterUpload) : Config :=
  {| WatchDir := "/watch"; PaperlessURL := "http://paperless/";
     Token := "secret"; AllowedExts := ∅; RenameToUUID := rename;
     AfterUpload_ := after; BackupDir := "/backup" |}.

Definition demo_content : bytes := [Byte.x25; Byte.x50; Byte.x44; Byte.x46].

Definition demo_world (ft : list fault) (nt : list reply) : world :=
  {| files := {[ "/watch/doc.pdf" := demo_content ]};
     faults := ft; net := nt; posted := [] |}.

(** C4: once the request went out and a response came back, [postDocument]
    returns [nil] exactly when the status is in [200,300).  And when the
    endpoint does not answer with such a status (another status, or no
    response at all), [Upload] returns an error that was raised before
    [postUploadAction], and the source file holds what it held; [u] is the
    fresh identifier of the temporary copy, so its path is not the source. *)
Theorem upload_failure_keeps_source
    (Join : string → string → string) (TempDir : string)
    (TypeByExtension : string → string) (valid_url : string → bool)
    (cfg : Config) :
  (∀ fp title w r w' status body rest,
     postDocument TypeByExtension valid_url cfg fp title w = (r, w') →
     net w = Reply status body :: rest →
     posted w' ≠ posted w →
     (r = Ok tt ↔ (200 ≤ status < 300)%Z))
  ∧ (∀ filePath u w r w',
       Upload Join TempDir TypeByExtension valid_url cfg filePath u w = (r, w') →
       (RenameToUUID cfg = true → uuid_path Join TempDir u filePath ≠ filePath) →
       ¬ (∃ status body rest,
            net w = Reply status body :: rest ∧ (200 ≤ status < 300)%Z) →
       (∃ e, r = Err (Wrap "upload failed" e) ∨ r = Err (Wrap "uuid copy" e))
       ∧ files w' !! filePath = files w !! filePath).
Proof.
  split.
  - intros fp title w r w' status body rest H Hnet Hp.
    exact (UploaderFacts.postDocument_status _ _ _ _ _ _ _ _ _ _ _ H Hnet Hp).
  - intros filePath u w r w' H Hfresh Hno.
    apply UploaderFacts.Upload_inv in H
      as [[Hrn H]|[Hrn [(e & Hc & ->)|(w1 & w2 & rr & Hc & Hb & Hrm)]]].
    + apply UploaderFacts.upload_and_dispose_inv in H
        as [(e & Hp & ->)|(w1 & Hp & _)].
      * split; [eauto|].
        by rewrite (UploaderFacts.postDocument_files _ _ _ _ _ _ _ _ Hp).
      * exfalso. apply Hno.
        by apply UploaderFacts.postDocument_ok in Hp as [_ Hp].
    + apply UploaderFacts.copyFile_spec in Hc as (_ & Hsame & _).
      split; [eauto|]. apply Hsame. intros Heq. by apply (Hfresh Hrn).
    + apply UploaderFacts.copyFile_spec in Hc as ([Hnet _] & Hsame & _).
      apply UploaderFacts.os_Remove_spec in Hrm as (_ & Hsame' & _).
      assert (Hne : filePath ≠ uuid_path Join TempDir u filePath).
      { intros Heq. by apply (Hfresh Hrn). }
      apply UploaderFacts.upload_and_dispose_inv in Hb
        as [(e & Hp & ->)|(w3 & Hp & _)].
      * split; [eauto|].
        rewrite Hsame' by exact Hne.
        rewrite (UploaderFacts.postDocument_files _ _ _ _ _ _ _ _ Hp).
        by apply Hsame.
      * exfalso. apply Hno. rewrite <- Hnet.
        by apply UploaderFacts.postDocument_ok in Hp as [_ Hp].
Qed.

(** HTTP 500 for a valid file, rename-to-UUID on, disposition delete. *)
Lemma upload_failure_keeps_source_witness :
  ∃ e w',
    demo_Upload (demo_cfg true AfterUploadDelete) "/watch/doc.pdf" "1b4e28ba"
      (demo_world [] [Reply 500 "Internal Server Error"]) = (Err e, w')
    ∧ files w' !! "/watch/doc.pdf" = Some demo_content.
Proof.
  destruct (demo_Upload (demo_cfg true AfterUploadDelete) "/watch/doc.pdf"
              "1b4e28ba" (demo_world [] [Reply 500 "Internal Server Error"]))
    as [r w'] eqn:Hrun.
  destruct (proj2 (upload_failure_keeps_source join_slash "/tmp" no_mime any_url
                     (demo_cfg true AfterUploadDelete))
              "/watch/doc.pdf" "1b4e28ba"
              (demo_world [] [Reply 500 "Internal Server Error"]) r w' Hrun)
    as [[e He] Hkeep].
  - intros _. vm_compute. discriminate.
  - intros (status & body & rest & Hnet & Hst). simpl in Hnet.
    injection Hnet as <- _ _. lia.
  - assert (Hr : ∃ e', r = Err e') by (destruct He as [->| ->]; eauto).
    destruct Hr as [e' ->]. exists e', w'. split; [reflexivity|].
    rewrite Hkeep. vm_compute. reflexivity.
Defined.

(** C5: whatever the configuration, [Upload] sends at most one request; its
    title is the base name of the original file without its extension
    (putting the extension back gives the base name), and its document part
    is named after the file that is read: the temporary copy when
    rename-to-UUID is on, the original otherwise. *)
Theorem upload_title_is_stem
    (Join : string → string → string) (TempDir : string)
    (TypeByExtension : string → string) (valid_url : string → bool)
    (cfg : Config) (filePath u : string) (w : world) (r : result unit) (w' : world) :
  Upload Join TempDir TypeByExtension valid_url cfg filePath u w = (r, w') →
  (TrimSuffix (Base filePath) (Ext (Base filePath)) ++ Ext (Base filePath))%string
    = Base filePath
  ∧ (posted w' = posted w
     ∨ ∃ req, posted w' = (posted w ++ [req])%list
              ∧ title_field req = TrimSuffix (Base filePath) (Ext (Base filePath))
              ∧ document_filename req
                = Base (if RenameToUUID cfg
                        then uuid_path Join TempDir u filePath
                        else filePath)).
Proof.
  intros H. split; [apply GoLibFacts.stem_ext|].
  exact (UploaderFacts.Upload_posted _ _ _ _ _ _ _ _ _ _ H).
Qed.

Definition demo_request (name : string) : request :=
  {| endpoint := "http://paperless/api/documents/post_document/";
     authorization := "Token secret"; user_agent := "curl/7.81.0";
     document_filename := name;
     document_type := "application/octet-stream";
     document_body := demo_content; title_field := "doc" |}.

Example upload_renamed_run :
  demo_Upload (demo_cfg true AfterUploadBackup) "/watch/doc.pdf" "1b4e28ba"
    (demo_world [] [Reply 200 "ok"])
  = (Ok tt, {| files := {[ "/backup/doc.pdf" := demo_content ]};
               faults := []; net := [];
               posted := [demo_request "1b4e28ba.pdf"] |}).
Proof. vm_compute. reflexivity. Qed.

Example upload_plain_run :
  demo_Upload (demo_cfg false AfterUploadDelete) "/watch/doc.pdf" "1b4e28ba"
    (demo_world [] [Reply 201 "ok"])
  = (Ok tt, {| files := ∅; faults := []; net := [];
               posted := [demo_request "doc.pdf"] |}).
Proof. vm_compute. reflexivity. Qed.

Lemma upload_title_is_stem_witness :
  ("doc" ++ ".pdf")%string = "doc.pdf"
  ∧ ([demo_request "1b4e28ba.pdf"] = []
     ∨ ∃ req, [demo_request "1b4e28ba.pdf"] = ([] ++ [req])%list
              ∧ title_field req = "doc"
              ∧ document_filename req = "1b4e28ba.pdf").
Proof.
  exact (upload_title_is_stem join_slash "/tmp" no_mime any_url
           (demo_cfg true AfterUploadBackup) "/watch/doc.pdf" "1b4e28ba"
           (demo_world [] [Reply 200 "ok"]) _ _ upload_renamed_run).
Defined.

(** C9: a file name that is nothing but its extension, such as [.pdf], has
    the empty stem, so the request [Upload] sends for it has an empty
    title. *)
Theorem extension_only_name_has_empty_title
    (Join : string → string → string) (TempDir : string)
    (TypeByExtension : string → string) (valid_url : string → bool) :
  Base "/watch/.pdf" = ".pdf"
  ∧ stem_of "/watch/.pdf" = ""
  ∧ (∀ cfg filePath u w r w' req,
       Ext (Base filePath) = Base filePath →
       Upload Join TempDir TypeByExtension valid_url cfg filePath u w = (r, w') →
       posted w' = (posted w ++ [req])%list →
       title_field req = "").
Proof.
  split; [reflexivity|]. split; [reflexivity|].
  intros cfg filePath u w r w' req Hext H Hposted.
  apply UploaderFacts.Upload_posted in H as [Hsame|(req' & Hp & Ht & _)].
  - exfalso. rewrite Hsame in Hposted. symmetry in Hposted.
    exact (UploaderFacts.app_singleton_neq _ _ Hposted).
  - rewrite Hp in Hposted. apply app_inj_tail in Hposted as [_ ->].
    rewrite Ht. unfold stem_of. simpl. rewrite Hext.
    apply GoLibFacts.trim_suffix_self.
Qed.

Definition dot_world : world :=
  {| files := {[ "/watch/.pdf" := demo_content ]};
     faults := []; net := [Reply 200 "ok"]; posted := [] |}.

Definition dot_request : request :=
  {| endpoint := "http://paperless/api/documents/post_document/";
     authorization := "Token secret"; user_agent := "curl/7.81.0";
     document_filename := ".pdf";
     document_type := "application/octet-stream";
     document_body := demo_content; title_field := "" |}.

Example upload_dot_run :
  demo_Upload (demo_cfg false AfterUploadDelete) "/watch/.pdf" "1b4e28ba" dot_world
  = (Ok tt, {| files := ∅; faults := []; net := []; posted := [dot_request] |}).
Proof. vm_compute. reflexivity. Qed.

Lemma extension_only_name_has_empty_title_witness :
  Ext (Base "/watch/.pdf") = Base "/watch/.pdf" ∧ title_field dot_request = "".
Proof.
  split; [reflexivity|].
  apply (proj2 (proj2 (extension_only_name_has_empty_title
                         join_slash "/tmp" no_mime any_url))
           (demo_cfg false AfterUploadDelete) "/watch/.pdf" "1b4e28ba"
           dot_world _ _ dot_request eq_refl upload_dot_run).
  reflexivity.
Defined.






(** C10: in the fallback of [moveFile] (the rename has failed), a failing
    [copyFile] (open, create, copy or sync) makes [moveFile] return that
    error with the source still there, and with its bytes when source and
    destination are two paths; and a source that is gone afterwards was
    removed by [os.Remove] after [copyFile] returned [nil] with the bytes
    of the source at the destination. *)
Theorem moveFile_fallback_keeps_source
    (src dst : string) (w : world) (e : error) (w1 : world) :
  os_Rename src dst w = (Err e, w1) →
  (∀ e' w2,
     copyFile src dst w1 = (Err e', w2) →
     moveFile src dst w = (Err e', w2)
     ∧ (is_Some (files w !! src) → is_Some (files w2 !! src))
     ∧ (src ≠ dst → files w2 !! src = files w !! src))
  ∧ (∀ r w',
       moveFile src dst w = (r, w') →
       src ≠ dst → is_Some (files w !! src) → files w' !! src = None →
       ∃ w2, copyFile src dst w1 = (Ok tt, w2)
             ∧ files w2 !! dst = files w !! src
             ∧ os_Remove src w2 = (r, w') ∧ r = Ok tt).
Proof.
  intros Hren.
  pose proof Hren as Hr. apply UploaderFacts.os_Rename_spec in Hr as (_ & _ & _ & Hf).
  specialize (Hf e eq_refl).
  split.
  - intros e' w2 Hcopy. split.
    { unfold moveFile. rewrite Hren. unfold bind. by rewrite Hcopy. }
    apply UploaderFacts.copyFile_spec in Hcopy as (_ & Hsame & Hkeep & _).
    rewrite <- Hf. split; [exact Hkeep|]. intros Hne. by apply Hsame.
  - intros r w' H Hne [c Hc] Hgone.
    apply UploaderFacts.moveFile_inv in H
      as [[Hren' _]|(e0 & w1' & Hren' & [(e' & Hcopy & ->)|(w2 & Hcopy & Hrm)])];
      rewrite Hren in Hren'; [discriminate| |]; injection Hren' as <- <-.
    + exfalso. apply UploaderFacts.copyFile_spec in Hcopy as (_ & Hsame & _).
      rewrite Hsame, Hf, Hc in Hgone by exact Hne. discriminate.
    + exists w2. split; [exact Hcopy|].
      pose proof Hcopy as Hcp.
      apply UploaderFacts.copyFile_spec in Hcp as (_ & Hsame & _ & Hok).
      destruct (Hok eq_refl Hne) as (c' & Hc' & Hd).
      split; [rewrite <- Hf; congruence|]. split; [exact Hrm|].
      pose proof Hrm as Hm.
      apply UploaderFacts.os_Remove_spec in Hm as (_ & _ & _ & _ & Herr).
      destruct r as [[]|e']; [reflexivity|]. exfalso.
      rewrite (Herr e' eq_refl), Hsame, Hf, Hc in Hgone by exact Hne.
      discriminate.
Qed.

(** The rename fails across devices and the sync of the copy fails: the
    error comes back and the source is still there. *)
Lemma moveFile_fallback_keeps_source_witness :
  ∃ e' w2,
    moveFile "/watch/doc.pdf" "/backup/doc.pdf"
      (demo_world [Fails 0; Works; Works; Works; Fails 0] []) = (Err e', w2)
    ∧ files w2 !! "/watch/doc.pdf" = Some demo_content.
Proof.
  destruct (copyFile "/watch/doc.pdf" "/backup/doc.pdf"
              (demo_world [Works; Works; Works; Fails 0] []))
    as [[[]|e'] w2] eqn:Hcopy; [vm_compute in Hcopy; discriminate|].
  destruct (proj1 (moveFile_fallback_keeps_source "/watch/doc.pdf" "/backup/doc.pdf"
                     (demo_world [Fails 0; Works; Works; Works; Fails 0] [])
                     OsError (demo_world [Works; Works; Works; Fails 0] [])
                     eq_refl) e' w2 Hcopy)
    as (Hmove & _ & Hkeep).
  exists e', w2. split; [exact Hmove|].
  rewrite Hkeep; [reflexivity | discriminate].
Defined.

(** The endpoint answers 500 and the removal of the temporary copy fails:
    [Upload] reports the upload failure and the copy stays in [/tmp]. *)
Definition cleanup_fails_world : world :=
  demo_world [Works; Works; Works; Works; Works; Works; Fails 0]
             [Reply 500 "Internal Server Error"].

Example cleanup_fails_run :
  demo_Upload (demo_cfg true AfterUploadDelete) "/watch/doc.pdf" "1b4e28ba"
    cleanup_fails_world
  = (Err (Wrap "upload failed" (HTTPStatus 500 "Internal Server Error")),
     {| files := {[ "/watch/doc.pdf" := demo_content;
                    "/tmp/1b4e28ba.pdf" := demo_content ]};
        faults := []; net := [];
        posted := [demo_request "1b4e28ba.pdf"] |}).
Proof. vm_compute. reflexivity. Qed.

(** When the copy itself breaks off, [Upload] returns before the cleanup is
    registered: what was written of the temporary file stays. *)
Example copy_breaks_off_run :
  demo_Upload (demo_cfg true AfterUploadDelete) "/watch/doc.pdf" "1b4e28ba"
    (demo_world [Works; Works; Fails 2] [Reply 200 "ok"])
  = (Err (Wrap "uuid copy" OsError),
     {| files := {[ "/watch/doc.pdf" := demo_content;
                    "/tmp/1b4e28ba.pdf" := [Byte.x25; Byte.x50] ]};
        faults := []; net := [Reply 200 "ok"]; posted := [] |}).
Proof. vm_compute. reflexivity. Qed.

(** C7, as stated, fails: on the exit path of an upload failure the
    temporary copy can be left behind, because the deferred [os.Remove] may
    fail and the code then only logs a warning. *)
Lemma temp_copy_left_behind_counterexample :
  ∃ r w',
    RenameToUUID (demo_cfg true AfterUploadDelete) = true
    ∧ files cleanup_fails_world
        !! uuid_path join_slash "/tmp" "1b4e28ba" "/watch/doc.pdf" = None
    ∧ demo_Upload (demo_cfg true AfterUploadDelete) "/watch/doc.pdf" "1b4e28ba"
        cleanup_fails_world = (r, w')
    ∧ r = Err (Wrap "upload failed" (HTTPStatus 500 "Internal Server Error"))
    ∧ files w' !! uuid_path join_slash "/tmp" "1b4e28ba" "/watch/doc.pdf"
      = Some demo_content.
Proof.
  eexists _, _. split; [reflexivity|]. split; [vm_compute; reflexivity|].
  split; [exact cleanup_fails_run|]. split; [reflexivity|].
  vm_compute. reflexivity.
Qed.

(** C7 (amended): with rename-to-UUID on and the temporary copy made, the
    last thing [Upload] does, whatever the rest of the attempt returned
    (success, upload failure or disposition failure), is [os.Remove] on the
    copy; the copy is gone afterwards when that call returns [nil] or finds
    no file, and when it fails otherwise nothing else changes. *)
Theorem temp_copy_cleanup
    (Join : string → string → string) (TempDir : string)
    (TypeByExtension : string → string) (valid_url : string → bool)
    (cfg : Config) (filePath u : string) (w w1 : world)
    (r : result unit) (w' : world) :
  RenameToUUID cfg = true →
  copyFile filePath (uuid_path Join TempDir u filePath) w = (Ok tt, w1) →
  Upload Join TempDir TypeByExtension valid_url cfg filePath u w = (r, w') →
  ∃ w2 rr,
    upload_and_dispose Join TypeByExtension valid_url cfg filePath
      (uuid_path Join TempDir u filePath) w1 = (r, w2)
    ∧ os_Remove (uuid_path Join TempDir u filePath) w2 = (rr, w')
    ∧ (rr = Ok tt ∨ rr = Err NotExist ∨ rr = Err OsError)
    ∧ (rr ≠ Err OsError → files w' !! uuid_path Join TempDir u filePath = None)
    ∧ (rr = Err OsError → files w' = files w2).
Proof.
  intros Hrn Hcopy H.
  apply UploaderFacts.Upload_inv in H
    as [[Hrn' _]|[_ [(e & Hc & _)|(w1' & w2 & rr & Hc & Hb & Hrm)]]];
    [congruence | congruence |].
  rewrite Hcopy in Hc. injection Hc as <-.
  exists w2, rr. split; [exact Hb|]. split; [exact Hrm|].
  assert (Hrr : rr = Ok tt ∨ rr = Err NotExist ∨ rr = Err OsError).
  { clear -Hrm. destruct w2 as [fs ft nt ps]. revert Hrm.
    unfold os_Remove, bind, next_fault, get_files, put_files, fail, ret. simpl.
    destruct ft as [|[|?] ft]; simpl;
      destruct (fs !! uuid_path Join TempDir u filePath); simpl;
      intros [= <- <-]; auto. }
  apply UploaderFacts.os_Remove_spec in Hrm as (_ & _ & Hok & Hne & Herr).
  split; [exact Hrr|]. split.
  - intros Hn. destruct Hrr as [->|[->| ->]]; [by apply Hok | by apply Hne | done].
  - intros ->. by apply (Herr OsError).
Qed.

(** The three exit paths with the removal working: success. *)
Lemma temp_copy_cleanup_witness :
  ∃ w2 rr,
    upload_and_dispose join_slash no_mime any_url (demo_cfg true AfterUploadBackup)
      "/watch/doc.pdf" (uuid_path join_slash "/tmp" "1b4e28ba" "/watch/doc.pdf")
      {| files := {[ "/watch/doc.pdf" := demo_content;
                     "/tmp/1b4e28ba.pdf" := demo_content ]};
         faults := []; net := [Reply 200 "ok"]; posted := [] |}
    = (Ok tt, w2)
    ∧ os_Remove (uuid_path join_slash "/tmp" "1b4e28ba" "/watch/doc.pdf") w2
      = (rr, {| files := {[ "/backup/doc.pdf" := demo_content ]};
                faults := []; net := [];
                posted := [demo_request "1b4e28ba.pdf"] |})
    ∧ files {| files := {[ "/backup/doc.pdf" := demo_content ]};
               faults := []; net := [];
               posted := [demo_request "1b4e28ba.pdf"] |}
        !! uuid_path join_slash "/tmp" "1b4e28ba" "/watch/doc.pdf" = None.
Proof.
  destruct (temp_copy_cleanup join_slash "/tmp" no_mime any_url
              (demo_cfg true AfterUploadBackup) "/watch/doc.pdf" "1b4e28ba"
              (demo_world [] [Reply 200 "ok"])
              {| files := {[ "/watch/doc.pdf" := demo_content;
                             "/tmp/1b4e28ba.pdf" := demo_content ]};
                 faults := []; net := [Reply 200 "ok"]; posted := [] |}
              (Ok tt)
              {| files := {[ "/backup/doc.pdf" := demo_content ]};
                 faults := []; net := [];
                 posted := [demo_request "1b4e28ba.pdf"] |})
    as (w2 & rr & Hbody & Hrm & _ & _ & _).
  - reflexivity.
  - vm_compute. reflexivity.
  - exact upload_renamed_run.
  - exists w2, rr. split; [exact Hbody|]. split; [exact Hrm|].
    vm_compute. reflexivity.
Defined.

(* ===================================================================== *)
(** * Part III.  Further properties of the code                           *)
(* ===================================================================== *)

(** ** [config]: [Validate] and [ParseExtensions] *)
Module ConfigFacts.
Local Open Scope nat_scope.

Lemma eqb_false_iff (a b : string) : String.eqb a b = false ↔ a ≠ b.
Proof. apply String.eqb_neq. Qed.

Lemma Split_nonempty (s : string) (sep : ascii) : Split s sep ≠ [].
Proof.
  destruct s as [|c s]; simpl; [discriminate|].
  destruct (Ascii.eqb c sep); [discriminate|].
  destruct (Split s sep); discriminate.
Qed.

(** Splitting at a separator that is written out splits the list. *)
Lemma Split_app (a b : string) (sep : ascii) :
  Split (a ++ String sep b) sep = (Split a sep ++ Split b sep)%list.
Proof.
  induction a as [|c a IH].
  - simpl. rewrite Ascii.eqb_refl. reflexivity.
  - rewrite GoLibFacts.append_cons. simpl. rewrite IH.
    destruct (Ascii.eqb c sep); [reflexivity|].
    pose proof (Split_nonempty a sep) as Hne.
    destruct (Split a sep) as [|h t]; [contradiction | reflexivity].
Qed.

Lemma ParseExtensions_elem (raw x : string) :
  x ∈ ParseExtensions raw ↔
  x ≠ "" ∧ ∃ e, e ∈ Split raw ","%char ∧ x = normalise e.
Proof.
  unfold ParseExtensions. destruct (String.eqb raw "") eqn:Hraw.
  - apply String.eqb_eq in Hraw. subst raw. split.
    + intros H. by apply not_elem_of_empty in H.
    + intros (Hx & e & He & ->). simpl in He.
      apply list_elem_of_singleton in He. subst e. by vm_compute in Hx.
  - rewrite FilterFacts.foldl_add_ext. split.
    + intros [H|H]; [by apply not_elem_of_empty in H | exact H].
    + intros H. right. exact H.
Qed.

Lemma lower_byte_idem (c : ascii) : lower_byte (lower_byte c) = lower_byte c.
Proof. destruct c as [[] [] [] [] [] [] [] []]; reflexivity. Qed.

Lemma lower_byte_sep (c : ascii) : IsPathSeparator (lower_byte c) = IsPathSeparator c.
Proof. destruct c as [[] [] [] [] [] [] [] []]; reflexivity. Qed.

Lemma lower_byte_dot (c : ascii) : is_dot (lower_byte c) = is_dot c.
Proof. destruct c as [[] [] [] [] [] [] [] []]; reflexivity. Qed.

Lemma ToLower_idem (s : string) : ToLower (ToLower s) = ToLower s.
Proof.
  induction s as [|c s IH]; simpl; [reflexivity|].
  by rewrite lower_byte_idem, IH.
Qed.

Lemma ToLower_length (s : string) : String.length (ToLower s) = String.length s.
Proof. induction s as [|c s IH]; simpl; congruence. Qed.

Lemma ToLower_get (i : nat) (s : string) :
  String.get i (ToLower s) = lower_byte <$> String.get i s.
Proof.
  revert i; induction s as [|c s IH]; intros [|i]; simpl; auto.
Qed.

Lemma ToLower_substring (n m : nat) (s : string) :
  substring n m (ToLower s) = ToLower (substring n m s).
Proof.
  revert n m; induction s as [|c s IH]; intros [|n] [|m]; simpl; auto.
  by rewrite IH.
Qed.



Lemma Ext_loop_ToLower (s : string) (i : nat) :
  Ext_loop (ToLower s) i = ToLower (Ext_loop s i).
Proof.
  induction i as [|i IH]; simpl; rewrite ToLower_get;
    destruct (String.get _ s) as [c|]; simpl; try reflexivity;
    rewrite lower_byte_sep, lower_byte_dot;
    destruct (IsPathSeparator c); try reflexivity;
    destruct (is_dot c); try reflexivity; try exact IH;
    unfold slice_from; by rewrite ToLower_length, ToLower_substring.
Qed.

Lemma Ext_ToLower (s : string) : Ext (ToLower s) = ToLower (Ext s).
Proof.
  unfold Ext. rewrite ToLower_length.
  destruct (String.length s); [reflexivity | apply Ext_loop_ToLower].
Qed.

Lemma strip_trailing_seps_slash (s : string) :
  strip_trailing_seps (s ++ "/") = strip_trailing_seps s.
Proof.
  induction s as [|c s IH]; [reflexivity|].
  rewrite GoLibFacts.append_cons. simpl. by rewrite IH.
Qed.

End ConfigFacts.

(** X1: [Validate] accepts a configuration exactly when the watch
    directory, the URL and the token are not empty and the action after
    upload is [delete], or [backup] with a backup directory that is not
    empty. *)
Theorem Validate_accepts (c : Config) :
  Validate c = None ↔
  WatchDir c ≠ "" ∧ PaperlessURL c ≠ "" ∧ Token c ≠ ""
  ∧ (AfterUpload_ c = AfterUploadDelete
     ∨ (AfterUpload_ c = AfterUploadBackup ∧ BackupDir c ≠ "")).
Proof.
  unfold Validate.
  destruct (String.eqb (WatchDir c) "") eqn:Hd;
    [apply String.eqb_eq in Hd; split; [discriminate | tauto]|].
  destruct (String.eqb (PaperlessURL c) "") eqn:Hu;
    [apply String.eqb_eq in Hu; split; [discriminate | tauto]|].
  destruct (String.eqb (Token c) "") eqn:Ht;
    [apply String.eqb_eq in Ht; split; [discriminate | tauto]|].
  apply String.eqb_neq in Hd, Hu, Ht.
  destruct (String.eqb (AfterUpload_ c) AfterUploadDelete) eqn:Ha.
  - apply String.eqb_eq in Ha. simpl.
    assert (Hnb : String.eqb (AfterUpload_ c) AfterUploadBackup = false).
    { rewrite Ha. reflexivity. }
    rewrite Hnb. simpl. tauto.
  - apply String.eqb_neq in Ha. simpl.
    destruct (String.eqb (AfterUpload_ c) AfterUploadBackup) eqn:Hb; simpl.
    + apply String.eqb_eq in Hb.
      destruct (String.eqb (BackupDir c) "") eqn:Hbd.
      * apply String.eqb_eq in Hbd. split; [discriminate | tauto].
      * apply String.eqb_neq in Hbd. tauto.
    + apply String.eqb_neq in Hb. split; [discriminate | tauto].
Qed.

(** X2: the extension list of two lists joined by a comma is the union of
    their extension lists; so the order of the components, repetitions and
    empty components do not matter. *)
Theorem ParseExtensions_comma (a b : string) :
  ParseExtensions (a ++ String ","%char b) = ParseExtensions a ∪ ParseExtensions b.
Proof.
  apply set_eq. intros x. rewrite elem_of_union.
  rewrite !ConfigFacts.ParseExtensions_elem, ConfigFacts.Split_app.
  split.
  - intros (Hx & e & He & ->). apply elem_of_app in He as [He|He]; eauto.
  - intros [(Hx & e & He & ->)|(Hx & e & He & ->)];
      (split; [exact Hx|]); exists e; (split; [|reflexivity]);
      apply elem_of_app; auto.
Qed.



(** X4: [allowed] does not see the case of a path: the path in lower case
    gets the answer of the path as written. *)
Theorem allowed_case_insensitive (path : string) (exts : gset string) :
  allowed (ToLower path) exts = allowed path exts.
Proof.
  unfold allowed. destruct (size exts =? 0)%nat; [reflexivity|].
  by rewrite ConfigFacts.Ext_ToLower, ConfigFacts.ToLower_idem.
Qed.

(** X5: trailing slashes of the configured URL do not change the endpoint
    [postDocument] posts to. *)
Theorem endpoint_ignores_trailing_slash (c : Config) (url : string) :
  endpoint_of
    {| WatchDir := WatchDir c; PaperlessURL := (url ++ "/")%string;
       Token := Token c; AllowedExts := AllowedExts c;
       RenameToUUID := RenameToUUID c; AfterUpload_ := AfterUpload_ c;
       BackupDir := BackupDir c |}
  = endpoint_of
      {| WatchDir := WatchDir c; PaperlessURL := url;
         Token := Token c; AllowedExts := AllowedExts c;
         RenameToUUID := RenameToUUID c; AfterUpload_ := AfterUpload_ c;
         BackupDir := BackupDir c |}.
Proof.
  unfold endpoint_of, TrimRight_slash. simpl.
  by rewrite ConfigFacts.strip_trailing_seps_slash.
Qed.

(** ** [watcher]: more about the loop *)
Module LoopFacts.
Local Open Scope Z_scope.
Local Open Scope list_scope.

Section Loop.
Variable Abs : string → option string.
Variable allowedExts : gset string.

(** What one timer message can come to. *)
Lemma onTimer_outcome st m acc st' o :
  onTimer allowedExts st m acc = (st', o) →
  (o = Stale m ∧ st' = st)
  ∨ (timers st' = delete (path m) (timers st)
     ∧ gens st' = delete (path m) (gens st)
     ∧ gen_of st (path m) = gen m
     ∧ ((o = Skipped (path m) ∧ allowed (path m) allowedExts = false)
        ∨ (o = Inaccessible (path m) ∧ allowed (path m) allowedExts = true
           ∧ acc = false)
        ∨ (o = Queued (path m) ∧ allowed (path m) allowedExts = true
           ∧ acc = true))).
Proof.
  unfold onTimer.
  destruct (gen_of st (path m) =? gen m) eqn:Hg; simpl.
  2:{ intros [= <- <-]. left. by split. }
  apply Z.eqb_eq in Hg.
  destruct (allowed (path m) allowedExts); simpl.
  2:{ intros [= <- <-]. right. simpl. do 3 (split; [done|]). left. by split. }
  destruct acc; simpl; intros [= <- <-]; right; simpl;
    do 3 (split; [done|]); right; [right | left]; by repeat split.
Qed.



(** The two maps hold the same paths. *)
Definition same_keys (st : state) : Prop := dom (timers st) = dom (gens st).

Lemma step_same_keys st a st' o :
  same_keys st → step Abs allowedExts st a = Some (st', o) → same_keys st'.
Proof.
  unfold same_keys. intros Hk Hstep.
  destruct a as [d|op name|t|i|acc|]; simpl in Hstep.
  - destruct (0 <=? d); inversion Hstep; subst. exact Hk.
  - injection Hstep as <- _. unfold onEvent.
    destruct (negb (is_create_write op)); [exact Hk|].
    destruct (Abs name) as [q|]; [|exact Hk]. simpl.
    by rewrite !dom_insert_L, Hk.
  - destruct (runtime_timers st !! t) as [tm|]; [|discriminate].
    destruct (deadline tm <=? now st); inversion Hstep; subst. exact Hk.
  - destruct (senders st !! i) as [m|]; [|discriminate].
    destruct (length (timerCh st) <? timerCh_cap)%nat; inversion Hstep; subst.
    exact Hk.
  - destruct (timerCh st) as [|m rest]; [discriminate|].
    destruct (onTimer _ _ _ _) as [st1 o1] eqn:Hon. injection Hstep as <- _.
    apply onTimer_outcome in Hon as [[_ ->]|(Ht & Hg & _)]; [exact Hk|].
    rewrite Ht, Hg. simpl. by rewrite !dom_delete_L, Hk.
  - inversion Hstep; subst. exact Hk.
Qed.

Lemma run_same_keys tr : ∀ st st' outs,
  same_keys st → run Abs allowedExts st tr = Some (st', outs) → same_keys st'.
Proof.
  induction tr as [|a tr IH]; intros st st' outs Hk Hrun; simpl in Hrun.
  - by injection Hrun as <- _.
  - destruct (step Abs allowedExts st a) as [[st1 o1]|] eqn:Hstep; [|discriminate].
    destruct (run Abs allowedExts st1 tr) as [[st2 o2]|] eqn:Hrun'; [|discriminate].
    injection Hrun as <- _.
    eapply IH; [|exact Hrun']. by eapply step_same_keys.
Qed.

(** *** The time of the latest raw event on a path *)

Variable p : string.

Definition next_last (last : option Z) (t : Z) (a : action) : option Z :=
  match a with
  | FsEvent op name => if hits Abs p op name then Some t else last
  | _ => last
  end.

Definition next_time (t : Z) (a : action) : Z :=
  match a with
  | Advance d => t + d
  | _ => t
  end.

(** The time of the latest raw event on [p] in [tr], [last] when there is
    none; [t] is the time at the start of [tr]. *)
Fixpoint last_hit (last : option Z) (t : Z) (tr : list action) : option Z :=
  match tr with
  | [] => last
  | a :: tr' => last_hit (next_last last t a) (next_time t a) tr'
  end.

Lemma step_now st a st' o :
  step Abs allowedExts st a = Some (st', o) → now st' = next_time (now st) a.
Proof.
  destruct a as [d|op name|t|i|acc|]; simpl.
  - destruct (0 <=? d); [|discriminate]. by intros [= <- _].
  - intros [= <- _]. apply BurstFacts.onEvent_now.
  - destruct (runtime_timers st !! t) as [tm|]; [|discriminate].
    destruct (deadline tm <=? now st); [|discriminate]. by intros [= <- _].
  - destruct (senders st !! i) as [m|]; [|discriminate].
    destruct (length (timerCh st) <? timerCh_cap)%nat; [|discriminate].
    by intros [= <- _].
  - destruct (timerCh st) as [|m rest]; [discriminate|].
    destruct (onTimer _ _ _ _) as [st1 o1] eqn:Hon. intros [= <- _].
    by apply BurstFacts.onTimer_now in Hon.
  - by intros [= <- _].
Qed.

Lemma spaced_cons last t a tr :
  spaced Abs p last t (a :: tr) = true →
  spaced Abs p (next_last last t a) (next_time t a) tr = true
  ∧ (∀ op name t0, a = FsEvent op name → hits Abs p op name = true →
       last = Some t0 → t - t0 < debounceDelay).
Proof.
  destruct a as [d|op name|t'|i|acc|]; simpl; intros H;
    try (split; [exact H | discriminate]).
  destruct (hits Abs p op name) eqn:Hh.
  - apply andb_true_iff in H as [Hgap H]. split; [exact H|].
    intros op' name' t0 [= <- <-] _ ->. by apply Z.ltb_lt in Hgap.
  - split; [exact H|]. intros op' name' t0 [= <- <-] Hh'. congruence.
Qed.

(** One step, with the time of the latest raw event written out. *)
Lemma step_phase_last st a st' o last c tr :
  BurstFacts.wf st → BurstFacts.phase p st last c →
  step Abs allowedExts st a = Some (st', o) →
  spaced Abs p last (now st) (a :: tr) = true →
  BurstFacts.phase p st' (next_last last (now st) a) (c + count_ready p o).
Proof.
  intros Hwf Hph Hstep Hsp. apply spaced_cons in Hsp as [_ Hgap].
  destruct a as [d|op name|t|i|acc|]; simpl in Hstep; simpl next_last.
  - destruct (0 <=? d) eqn:Hd; [|discriminate].
    injection Hstep as <- <-. apply Z.leb_le in Hd. simpl. rewrite Nat.add_0_r.
    eapply BurstFacts.phase_frame; [|exact Hph].
    split; [|split; [|split; [|split]]]; simpl; auto; lia.
  - injection Hstep as <- <-. simpl. rewrite Nat.add_0_r.
    destruct (hits Abs p op name) eqn:Hhit.
    + apply (BurstFacts.phase_hit Abs p st op name last c Hwf Hph Hhit).
      destruct last as [t0|]; [|exact I]. by apply (Hgap op name).
    + eapply BurstFacts.phase_frame; [|exact Hph].
      by apply BurstFacts.same_p_event_other.
  - destruct (runtime_timers st !! t) as [tm|] eqn:Ht; [|discriminate].
    destruct (deadline tm <=? now st) eqn:Hdue; [|discriminate].
    injection Hstep as <- <-. apply Z.leb_le in Hdue. simpl. rewrite Nat.add_0_r.
    destruct (decide (path (payload tm) = p)) as [Hp|Hp].
    + by apply BurstFacts.phase_expire_p.
    + eapply BurstFacts.phase_frame; [|exact Hph].
      by apply BurstFacts.same_p_expire_other.
  - destruct (senders st !! i) as [m|] eqn:Hi; [|discriminate].
    destruct (length (timerCh st) <? timerCh_cap)%nat; [|discriminate].
    injection Hstep as <- <-. simpl. rewrite Nat.add_0_r.
    eapply BurstFacts.phase_frame; [|exact Hph]. by apply BurstFacts.same_p_send.
  - destruct (timerCh st) as [|m rest] eqn:Hch; [discriminate|].
    destruct (onTimer _ _ _ _) as [st1 o1] eqn:Hon.
    injection Hstep as <- <-.
    destruct (decide (path m = p)) as [Hp|Hp].
    + eapply BurstFacts.phase_receive_p; [exact Hph | exact Hch | exact Hp | exact Hon].
    + destruct (BurstFacts.same_p_receive_other allowedExts p st m rest acc st1 o1
                  Hch Hp Hon) as [Hs Hr].
      simpl. rewrite Hr, Nat.add_0_r.
      eapply BurstFacts.phase_frame; [exact Hs | exact Hph].
  - injection Hstep as <- <-. simpl. rewrite Nat.add_0_r. exact Hph.
Qed.

Lemma run_phase_last tr : ∀ st last c st' outs,
  BurstFacts.wf st → BurstFacts.phase p st last c →
  run Abs allowedExts st tr = Some (st', outs) →
  spaced Abs p last (now st) tr = true →
  BurstFacts.phase p st' (last_hit last (now st) tr) (c + count_ready p outs).
Proof.
  induction tr as [|a tr IH]; intros st last c st' outs Hwf Hph Hrun Hsp.
  - simpl in Hrun. injection Hrun as <- <-. simpl. by rewrite Nat.add_0_r.
  - simpl in Hrun.
    destruct (step Abs allowedExts st a) as [[st1 o1]|] eqn:Hstep; [|discriminate].
    destruct (run Abs allowedExts st1 tr) as [[st2 o2]|] eqn:Hrun'; [|discriminate].
    injection Hrun as <- <-.
    pose proof (step_phase_last _ _ _ _ _ _ _ Hwf Hph Hstep Hsp) as Hph1.
    apply spaced_cons in Hsp as [Hsp1 _].
    rewrite <- (step_now _ _ _ _ Hstep) in Hsp1.
    rewrite BurstFacts.count_ready_app, Nat.add_assoc. simpl last_hit.
    rewrite <- (step_now _ _ _ _ Hstep).
    exact (IH st1 _ _ st2 o2 (BurstFacts.step_wf _ _ _ _ _ _ Hwf Hstep)
             Hph1 Hrun' Hsp1).
Qed.

Lemma no_hits_spaced tr : ∀ last t,
  count_hits Abs p tr = 0%nat →
  spaced Abs p last t tr = true ∧ last_hit last t tr = last.
Proof.
  induction tr as [|a tr IH]; intros last t Hc; [by split|].
  destruct a as [d|op name|t'|i|acc|]; simpl in *; try (by apply IH).
  destruct (hits Abs p op name); [discriminate|]. by apply IH.
Qed.

End Loop.
End LoopFacts.




(** X7: in every state the loop reaches, [timers] and [gens] hold the same
    paths: an entry is made in both by a raw event and taken out of both by
    the timer message that is accepted. *)
Theorem timers_gens_same_paths
    (Abs : string → option string) (exts : gset string)
    (tr : list action) (st' : state) (outs : list outcome) :
  run Abs exts init tr = Some (st', outs) →
  dom (timers st') = dom (gens st').
Proof.
  intros Hrun.
  apply (LoopFacts.run_same_keys Abs exts tr init st' outs); [|exact Hrun].
  unfold LoopFacts.same_keys. simpl. by rewrite !dom_empty_L.
Qed.

Lemma timers_gens_same_paths_witness :
  dom (timers burst_final) = dom (gens burst_final).
Proof.
  exact (timers_gens_same_paths Some ∅ burst_trace burst_final _ burst_run).
Defined.



(** X9: no ready-signal without a raw event: in a run from the initial
    state in which no Create/Write event reached the debounce code for [p],
    no ready-signal for [p] is given, whatever happens on other paths. *)
Theorem no_signal_without_event
    (Abs : string → option string) (exts : gset string) (p : string)
    (tr : list action) (st' : state) (outs : list outcome) :
  run Abs exts init tr = Some (st', outs) →
  count_hits Abs p tr = 0%nat →
  count_ready p outs = 0%nat.
Proof.
  intros Hrun Hc.
  destruct (LoopFacts.no_hits_spaced Abs p tr None 0%Z Hc) as [Hsp Hlast].
  pose proof (LoopFacts.run_phase_last Abs exts p tr init None 0%nat st' outs
                (BurstFacts.init_wf) (BurstFacts.init_phase p) Hrun Hsp) as Hph.
  simpl in Hph. rewrite Hlast in Hph. by inversion Hph.
Qed.

Lemma no_signal_without_event_witness :
  count_ready "/watch/other.pdf" [Queued "/watch/doc.pdf"] = 0%nat.
Proof.
  apply (no_signal_without_event Some ∅ "/watch/other.pdf" burst_trace burst_final
           [Queued "/watch/doc.pdf"] burst_run).
  vm_compute. reflexivity.
Defined.

(** Without the spacing the generation test alone does not give X8: a
    timer goroutine that is late with its send can meet a generation that
    was counted again from zero.  Here the message of the first timer is
    taken for the third raw event and the path is queued at once. *)
Example late_goroutine_run :
  ∃ st',
    run Some ∅ init
      [FsEvent Create "/watch/doc.pdf"; Advance 750000000; Expire 0;
       Advance 50000000; FsEvent Write "/watch/doc.pdf";
       Advance 750000000; Expire 1; Send 1; Receive true;
       Advance 50000000; FsEvent Write "/watch/doc.pdf";
       Send 0; Receive true]
    = Some (st', [Queued "/watch/doc.pdf"; Queued "/watch/doc.pdf"])
    ∧ now st' = 1600000000%Z.
Proof. eexists. split; [vm_compute; reflexivity | reflexivity]. Qed.

(** ** [uploader]: more about the pipeline *)
Module PipelineFacts.
Import UploaderFacts.
Local Open Scope Z_scope.
Local Open Scope list_scope.

Ltac unfold_prims :=
  unfold os_Open, os_Create, io_Copy, read_all, file_Sync, file_Close,
    os_Remove, os_Rename, bind, next_fault, get_files, put_files, set_files,
    fail, ret; simpl.

Ltac next_entry ft := destruct ft as [|[|?] ft]; simpl.

(** [copyFile] unfolded along the fault tape. *)
Ltac copy_cases fs ft src :=
  unfold copyFile, defer; unfold_prims;
  next_entry ft;
  (destruct (fs !! src) as [c0|] eqn:Hsrc0; simpl);
  try (next_entry ft; try (next_entry ft; try next_entry ft)).

(** Copying a file onto itself empties it: [os.Create] truncates the file
    before [io.Copy] reads it. *)
Lemma copyFile_self p w w' :
  copyFile p p w = (Ok tt, w') → files w' !! p = Some [].
Proof.
  destruct w as [fs ft nt ps]. copy_cases fs ft p;
    intros [= <-]; simpl;
    rewrite ?lookup_insert_eq; simpl; rewrite ?lookup_insert_eq; reflexivity.
Qed.

(** What a copy that fails leaves at the destination. *)
Lemma copyFile_failed src dst w e w' c :
  copyFile src dst w = (Err e, w') → src ≠ dst → files w !! src = Some c →
  files w' !! dst = files w !! dst
  ∨ ∃ n, files w' !! dst = Some (take n c).
Proof.
  destruct w as [fs ft nt ps]. simpl. intros H Hne Hc. revert H.
  copy_cases fs ft src; intros [= <- <-]; simpl; simplify_eq;
    rewrite ?insert_insert_eq, ?lookup_insert_eq;
    rewrite ?lookup_insert_ne by congruence;
    unfold bytes in *; rewrite ?Hsrc0; simpl;
    first [ by left
          | right; eexists; reflexivity
          | right; exists (length c); by rewrite firstn_all ].
Qed.

Section Pipeline.
Variable Join : string → string → string.
Variable TempDir : string.
Variable TypeByExtension : string → string.
Variable valid_url : string → bool.

Local Abbreviation postDocument := (postDocument TypeByExtension valid_url).
Local Abbreviation postUploadAction := (postUploadAction Join).
Local Abbreviation upload_and_dispose :=
  (upload_and_dispose Join TypeByExtension valid_url).
Local Abbreviation Upload := (Upload Join TempDir TypeByExtension valid_url).
Local Abbreviation uuid_path := (uuid_path Join TempDir).

(** The request [postDocument] builds for a file holding [c]. *)
Definition request_of (cfg : Config) (fp title : string) (c : bytes) : request :=
  {| endpoint := endpoint_of cfg;
     authorization := ("Token " ++ Token cfg)%string;
     user_agent := "curl/7.81.0";
     document_filename := Base fp;
     document_type := mime_of TypeByExtension fp;
     document_body := c;
     title_field := title |}.

Ltac post_cases fs ft nt fp st :=
  unfold postDocument, uploader.postDocument, wrap, defer, client_Do;
  unfold_prims; next_entry ft;
  [ destruct (fs !! fp) eqn:Hfp; simpl
  | destruct (fs !! fp) eqn:Hfp; simpl; [next_entry ft|]
  | destruct (fs !! fp) eqn:Hfp; simpl ];
  try (destruct (valid_url _); simpl);
  try (destruct nt as [|[st ?|] nt]; simpl);
  try (destruct (status_rejected st) eqn:Hst; simpl).

(** A request that went out was built from the bytes of the file. *)
Lemma postDocument_sent cfg fp title w r w' req :
  postDocument cfg fp title w = (r, w') →
  posted w' = posted w ++ [req] →
  ∃ c, files w !! fp = Some c ∧ req = request_of cfg fp title c.
Proof.
  destruct w as [fs ft nt ps]. post_cases fs ft nt fp st;
    intros [= <- <-]; simpl; intros Hp;
    try (symmetry in Hp; by apply app_singleton_neq in Hp);
    apply app_inj_tail in Hp as [_ <-]; eexists; (split; [reflexivity|]);
    unfold request_of; unfold bytes in *; rewrite Hfp; reflexivity.
Qed.

(** [nil] from [postDocument]: the request went out. *)
Lemma postDocument_ok_posted cfg fp title w w' :
  postDocument cfg fp title w = (Ok tt, w') →
  ∃ req, posted w' = posted w ++ [req].
Proof.
  destruct w as [fs ft nt ps]. post_cases fs ft nt fp st;
    intros [= <-]; simpl; eexists; reflexivity.
Qed.


(** A disposition that returns [nil] has taken the source away. *)
Lemma postUploadAction_ok_gone cfg fp w w' :
  AfterUpload_ cfg = AfterUploadDelete
  ∨ (AfterUpload_ cfg = AfterUploadBackup
     ∧ Join (BackupDir cfg) (Base fp) ≠ fp) →
  postUploadAction cfg fp w = (Ok tt, w') →
  files w' !! fp = None.
Proof.
  unfold postUploadAction, uploader.postUploadAction.
  intros [Ha|[Ha Hne]] H; rewrite Ha in H; simpl in H.
  - apply wrap_inv in H as [([] & H & _)|(e & _ & [=])].
    apply os_Remove_spec in H as (_ & _ & Hok & _). by apply Hok.
  - apply wrap_inv in H as [([] & H & _)|(e & _ & [=])].
    apply moveFile_spec in H as (_ & _ & Hok).
    destruct (Hok eq_refl (not_eq_sym Hne)) as (c & _ & _ & Hgone). exact Hgone.
Qed.

(** A disposition that fails has left the source as it was. *)
Lemma postUploadAction_failed cfg fp w e w' :
  Join (BackupDir cfg) (Base fp) ≠ fp →
  postUploadAction cfg fp w = (Err e, w') →
  files w' !! fp = files w !! fp.
Proof.
  unfold postUploadAction, uploader.postUploadAction. intros Hne H.
  destruct (String.eqb (AfterUpload_ cfg) AfterUploadDelete).
  { apply wrap_inv in H as [(a & _ & [=])|(e' & H & _)].
    apply os_Remove_spec in H as (_ & _ & _ & _ & Herr).
    by rewrite (Herr e' eq_refl). }
  destruct (String.eqb (AfterUpload_ cfg) AfterUploadBackup); [|discriminate].
  apply wrap_inv in H as [(a & _ & [=])|(e' & H & _)].
  apply moveFile_inv in H
    as [[_ [=]]|(e0 & w1 & Hren & [(e1 & Hcopy & _)|(w2 & Hcopy & Hrm)])];
    apply os_Rename_spec in Hren as (_ & _ & _ & Hf);
    rewrite <- (Hf e0 eq_refl);
    apply copyFile_spec in Hcopy as (_ & Hsame & _).
  - apply Hsame. congruence.
  - apply os_Remove_spec in Hrm as (_ & _ & _ & _ & Herr).
    rewrite (Herr e' eq_refl). apply Hsame. congruence.
Qed.

Lemma Validate_action cfg :
  Validate cfg = None →
  AfterUpload_ cfg = AfterUploadDelete ∨ AfterUpload_ cfg = AfterUploadBackup.
Proof.
  unfold Validate.
  destruct (String.eqb (WatchDir cfg) ""); [discriminate|].
  destruct (String.eqb (PaperlessURL cfg) ""); [discriminate|].
  destruct (String.eqb (Token cfg) ""); [discriminate|].
  destruct (String.eqb (AfterUpload_ cfg) AfterUploadDelete) eqn:Ha;
    [apply String.eqb_eq in Ha; auto|].
  destruct (String.eqb (AfterUpload_ cfg) AfterUploadBackup) eqn:Hb;
    [apply String.eqb_eq in Hb; auto | discriminate].
Qed.

End Pipeline.
End PipelineFacts.

(** X10: with a configuration [Validate] accepts, an [Upload] that returns
    [nil] has taken the source out of the watched directory: it is deleted,
    or moved to the backup directory (another path than the source); the
    fresh temporary path is not the source. *)
Theorem validated_upload_disposes
    (Join : string → string → string) (TempDir : string)
    (TypeByExtension : string → string) (valid_url : string → bool)
    (cfg : Config) (filePath u : string) (w w' : world) :
  Validate cfg = None →
  (RenameToUUID cfg = true → uuid_path Join TempDir u filePath ≠ filePath) →
  (AfterUpload_ cfg = AfterUploadBackup →
     Join (BackupDir cfg) (Base filePath) ≠ filePath) →
  Upload Join TempDir TypeByExtension valid_url cfg filePath u w = (Ok tt, w') →
  files w' !! filePath = None.
Proof.
  intros Hv Hfresh Hdst H.
  assert (Hact : AfterUpload_ cfg = AfterUploadDelete
                 ∨ (AfterUpload_ cfg = AfterUploadBackup
                    ∧ Join (BackupDir cfg) (Base filePath) ≠ filePath)).
  { destruct (PipelineFacts.Validate_action cfg Hv) as [Ha|Ha]; auto. }
  assert (Hbody : ∀ up w0 w0',
            upload_and_dispose Join TypeByExtension valid_url cfg filePath up w0
              = (Ok tt, w0') → files w0' !! filePath = None).
  { intros up w0 w0' Hu.
    apply UploaderFacts.upload_and_dispose_inv in Hu
      as [(e & _ & [=])|(w1 & _ & Hpa)].
    exact (PipelineFacts.postUploadAction_ok_gone Join cfg filePath w1 w0' Hact Hpa). }
  apply UploaderFacts.Upload_inv in H
    as [[Hrn H]|[Hrn [(e & _ & [=])|(w1 & w2 & rr & _ & Hu & Hrm)]]].
  - by apply Hbody in H.
  - apply UploaderFacts.os_Remove_spec in Hrm as (_ & Hsame & _).
    rewrite Hsame; [by apply Hbody in Hu|].
    intros Heq. by apply (Hfresh Hrn).
Qed.

Lemma validated_upload_disposes_witness :
  files {| files := ∅; faults := []; net := [];
           posted := [demo_request "doc.pdf"] |} !! "/watch/doc.pdf" = None.
Proof.
  apply (validated_upload_disposes join_slash "/tmp" no_mime any_url
           (demo_cfg false AfterUploadDelete) "/watch/doc.pdf" "1b4e28ba"
           (demo_world [] [Reply 201 "ok"])).
  - reflexivity.
  - intros [=].
  - intros [=].
  - exact upload_plain_run.
Defined.






(** X12: the request [Upload] sends carries the bytes the source file held,
    also when they are read from the temporary copy, and goes to the
    endpoint of the configuration with its token. *)
Theorem Upload_sends_source_bytes
    (Join : string → string → string) (TempDir : string)
    (TypeByExtension : string → string) (valid_url : string → bool)
    (cfg : Config) (filePath u : string) (w : world) (r : result unit)
    (w' : world) (req : request) :
  Upload Join TempDir TypeByExtension valid_url cfg filePath u w = (r, w') →
  posted w' = (posted w ++ [req])%list →
  (RenameToUUID cfg = true → uuid_path Join TempDir u filePath ≠ filePath) →
  ∃ c, files w !! filePath = Some c
       ∧ document_body req = c
       ∧ endpoint req = endpoint_of cfg
       ∧ authorization req = ("Token " ++ Token cfg)%string.
Proof.
  intros H Hposted Hfresh.
  assert (Hbody : ∀ up w0 r0 w0',
            upload_and_dispose Join TypeByExtension valid_url cfg filePath up w0
              = (r0, w0') →
            posted w0' = (posted w0 ++ [req])%list →
            ∃ c, files w0 !! up = Some c
                 ∧ req = PipelineFacts.request_of TypeByExtension cfg up
                           (stem_of filePath) c).
  { intros up w0 r0 w0' Hu Hp.
    apply UploaderFacts.upload_and_dispose_inv in Hu
      as [(e & Hpd & _)|(w1 & Hpd & Hpa)].
    - exact (PipelineFacts.postDocument_sent _ _ _ _ _ _ _ _ _ Hpd Hp).
    - apply UploaderFacts.postUploadAction_io in Hpa as [_ Hps].
      rewrite Hps in Hp.
      exact (PipelineFacts.postDocument_sent _ _ _ _ _ _ _ _ _ Hpd Hp). }
  apply UploaderFacts.Upload_inv in H
    as [[Hrn H]|[Hrn [(e & Hc & _)|(w1 & w2 & rr & Hc & Hu & Hrm)]]].
  - destruct (Hbody _ _ _ _ H Hposted) as (c & Hc & ->). exists c. by repeat split.
  - exfalso. apply UploaderFacts.copyFile_spec in Hc as ([_ Hps] & _).
    rewrite Hps in Hposted. symmetry in Hposted.
    exact (UploaderFacts.app_singleton_neq _ _ Hposted).
  - apply UploaderFacts.copyFile_spec in Hc as ([_ Hps1] & _ & _ & Hok).
    apply UploaderFacts.os_Remove_spec in Hrm as ([_ Hps2] & _).
    rewrite Hps2, <- Hps1 in Hposted.
    destruct (Hbody _ _ _ _ Hu Hposted) as (c & Hup & ->).
    destruct (Hok eq_refl (not_eq_sym (Hfresh Hrn))) as (c' & Hsrc & Hdst).
    exists c'. split; [exact Hsrc|]. split; [simpl; congruence | by split].
Qed.

Lemma Upload_sends_source_bytes_witness :
  ∃ c, files (demo_world [] [Reply 200 "ok"]) !! "/watch/doc.pdf" = Some c
       ∧ document_body (demo_request "1b4e28ba.pdf") = c
       ∧ endpoint (demo_request "1b4e28ba.pdf")
         = endpoint_of (demo_cfg true AfterUploadBackup)
       ∧ authorization (demo_request "1b4e28ba.pdf")
         = ("Token " ++ Token (demo_cfg true AfterUploadBackup))%string.
Proof.
  apply (Upload_sends_source_bytes join_slash "/tmp" no_mime any_url
           (demo_cfg true AfterUploadBackup) "/watch/doc.pdf" "1b4e28ba"
           (demo_world [] [Reply 200 "ok"]) _ _ _ upload_renamed_run).
  - reflexivity.
  - intros _. vm_compute. discriminate.
Defined.

(** X13: [copyFile] between two paths changes the destination only.  When
    it returns [nil] the destination holds the bytes of the source; when it
    fails the destination is as before or holds a first part of them. *)
Theorem copyFile_result
    (src dst : string) (w : world) (r : result unit) (w' : world) (c : bytes) :
  copyFile src dst w = (r, w') →
  src ≠ dst →
  files w !! src = Some c →
  (∀ q, q ≠ dst → files w' !! q = files w !! q)
  ∧ (r = Ok tt → files w' !! dst = Some c)
  ∧ (∀ e, r = Err e →
       files w' !! dst = files w !! dst
       ∨ ∃ n, files w' !! dst = Some (take n c)).
Proof.
  intros H Hne Hc. split; [|split].
  - by apply UploaderFacts.copyFile_spec in H as (_ & Hsame & _).
  - intros ->. apply UploaderFacts.copyFile_spec in H as (_ & _ & _ & Hok).
    destruct (Hok eq_refl Hne) as (c' & Hc' & Hd). congruence.
  - intros e ->. exact (PipelineFacts.copyFile_failed _ _ _ _ _ _ H Hne Hc).
Qed.

Lemma copyFile_result_witness :
  files (snd (copyFile "/watch/doc.pdf" "/tmp/x.pdf"
                (demo_world [Works; Works; Fails 2] []))) !! "/tmp/x.pdf"
    = files (demo_world [Works; Works; Fails 2] []) !! "/tmp/x.pdf"
  ∨ ∃ n, files (snd (copyFile "/watch/doc.pdf" "/tmp/x.pdf"
                       (demo_world [Works; Works; Fails 2] []))) !! "/tmp/x.pdf"
         = Some (take n demo_content).
Proof.
  apply (proj2 (proj2 (copyFile_result "/watch/doc.pdf" "/tmp/x.pdf"
                         (demo_world [Works; Works; Fails 2] [])
                         (Err OsError) _ demo_content
                         eq_refl ltac:(discriminate) eq_refl)) OsError eq_refl).
Defined.

(** X14: copying a file onto itself empties it: a [copyFile] with equal
    paths that returns [nil] leaves no bytes in the file, because
    [os.Create] truncates it before [io.Copy] reads it. *)
Theorem copyFile_onto_itself (p : string) (w w' : world) :
  copyFile p p w = (Ok tt, w') → files w' !! p = Some [].
Proof.
  destruct w as [fs ft nt ps].
  unfold copyFile, defer; PipelineFacts.unfold_prims.
  PipelineFacts.next_entry ft;
    (destruct (fs !! p) as [c0|] eqn:Hp; simpl);
    try (PipelineFacts.next_entry ft;
         try (PipelineFacts.next_entry ft; try PipelineFacts.next_entry ft));
    intros [= <-]; simpl;
    rewrite ?lookup_insert_eq; simpl; rewrite ?lookup_insert_eq; reflexivity.
Qed.

Lemma copyFile_onto_itself_witness :
  files (snd (copyFile "/watch/doc.pdf" "/watch/doc.pdf" (demo_world [] [])))
    !! "/watch/doc.pdf" = Some [].
Proof.
  apply (copyFile_onto_itself "/watch/doc.pdf" (demo_world [] [])).
  vm_compute. reflexivity.
Defined.

(** X15: when [Upload] fails in the disposition ("delete after upload" or
    "backup after upload"), the document is already at the endpoint: one
    request went out and was answered with a status in [200,300); and the
    source file is still there, unchanged. *)
Theorem disposition_failure_after_upload
    (Join : string → string → string) (TempDir : string)
    (TypeByExtension : string → string) (valid_url : string → bool)
    (cfg : Config) (filePath u : string) (w : world)
    (msg : string) (e : error) (w' : world) :
  Upload Join TempDir TypeByExtension valid_url cfg filePath u w
    = (Err (Wrap msg e), w') →
  msg = "delete after upload" ∨ msg = "backup after upload" →
  (RenameToUUID cfg = true → uuid_path Join TempDir u filePath ≠ filePath) →
  Join (BackupDir cfg) (Base filePath) ≠ filePath →
  (∃ req, posted w' = (posted w ++ [req])%list)
  ∧ (∃ status body rest,
       net w = Reply status body :: rest ∧ (200 ≤ status < 300)%Z)
  ∧ is_Some (files w !! filePath)
  ∧ files w' !! filePath = files w !! filePath.
Proof.
  intros H Hmsg Hfresh Hdst.
  assert (Hbody : ∀ up w0 w0',
            upload_and_dispose Join TypeByExtension valid_url cfg filePath up w0
              = (Err (Wrap msg e), w0') →
            (∃ req, posted w0' = (posted w0 ++ [req])%list)
            ∧ (∃ status body rest,
                 net w0 = Reply status body :: rest ∧ (200 ≤ status < 300)%Z)
            ∧ is_Some (files w0 !! up)
            ∧ files w0' !! filePath = files w0 !! filePath).
  { intros up w0 w0' Hu.
    apply UploaderFacts.upload_and_dispose_inv in Hu
      as [(e' & _ & [= -> _])|(w1 & Hpd & Hpa)].
    { destruct Hmsg as [[=]|[=]]. }
    pose proof (PipelineFacts.postDocument_ok_posted _ _ _ _ _ _ _ Hpd) as [req Hreq].
    pose proof (UploaderFacts.postDocument_files _ _ _ _ _ _ _ _ Hpd) as Hf.
    apply UploaderFacts.postDocument_ok in Hpd as [Hsome Hnet].
    pose proof (UploaderFacts.postUploadAction_io _ _ _ _ _ _ Hpa) as [_ Hps].
    split; [exists req; by rewrite Hps|]. split; [exact Hnet|].
    split; [exact Hsome|].
    rewrite <- Hf.
    exact (PipelineFacts.postUploadAction_failed Join cfg filePath w1 _ w0' Hdst Hpa). }
  apply UploaderFacts.Upload_inv in H
    as [[Hrn H]|[Hrn [(e' & _ & [= -> _])|(w1 & w2 & rr & Hc & Hu & Hrm)]]].
  - by apply Hbody in H.
  - destruct Hmsg as [[=]|[=]].
  - apply UploaderFacts.copyFile_spec in Hc as ([Hnet Hps1] & Hsame & _ & Hok).
    apply UploaderFacts.os_Remove_spec in Hrm as ([_ Hps2] & Hsame' & _).
    destruct (Hbody _ _ _ Hu) as ([req Hreq] & Hst & _ & Hkeep).
    destruct (Hok eq_refl (not_eq_sym (Hfresh Hrn))) as (c & Hsrc & _).
    split; [exists req; by rewrite Hps2, Hreq, Hps1|].
    split; [by rewrite <- Hnet|]. split; [eauto|].
    rewrite Hsame' by (intros Heq; by apply (Hfresh Hrn)).
    rewrite Hkeep. apply Hsame. intros Heq. by apply (Hfresh Hrn).
Qed.

(** The upload is accepted, then [os.Remove] on the source fails. *)
Example delete_fails_run :
  demo_Upload (demo_cfg false AfterUploadDelete) "/watch/doc.pdf" "1b4e28ba"
    (demo_world [Works; Works; Fails 0] [Reply 200 "ok"])
  = (Err (Wrap "delete after upload" OsError),
     {| files := {[ "/watch/doc.pdf" := demo_content ]};
        faults := []; net := []; posted := [demo_request "doc.pdf"] |}).
Proof. vm_compute. reflexivity. Qed.

Lemma disposition_failure_after_upload_witness :
  (∃ req, [demo_request "doc.pdf"] = ([] ++ [req])%list)
  ∧ (∃ status body rest,
       [Reply 200 "ok"] = Reply status body :: rest ∧ (200 ≤ status < 300)%Z)
  ∧ is_Some (files (demo_world [Works; Works; Fails 0] [Reply 200 "ok"])
               !! "/watch/doc.pdf")
  ∧ ({[ "/watch/doc.pdf" := demo_content ]} : gmap string bytes)
      !! "/watch/doc.pdf"
    = files (demo_world [Works; Works; Fails 0] [Reply 200 "ok"])
        !! "/watch/doc.pdf".
Proof.
  apply (disposition_failure_after_upload join_slash "/tmp" no_mime any_url
           (demo_cfg false AfterUploadDelete) "/watch/doc.pdf" "1b4e28ba"
           (demo_world [Works; Works; Fails 0] [Reply 200 "ok"])
           "delete after upload" OsError _ delete_fails_run).
  - by left.
  - intros [=].
  - vm_compute. discriminate.
Defined.

(** ** [watcher]: the readiness probe [waitForFile]

    The clock is the monotonic clock of [time.Now], in nanoseconds.
    [stat t] tells whether [os.Stat(path)] returns no error when it is
    called at time [t].  The tape gives, for each round of the loop, how
    long the [os.Stat] took and how much longer than asked the
    [time.Sleep] lasted (both may be zero; an empty tape means zero). *)
Module probe.
Local Open Scope Z_scope.

(** [100 * time.Millisecond]. *)
Definition pollInterval : Z := 100 * 1000000.

Definition next_lag (lag : list (N * N)) : (N * N) * list (N * N) :=
  match lag with
  | [] => ((0%N, 0%N), [])
  | l :: rest => (l, rest)
  end.

(** The loop [for time.Now().Before(deadline) { ... }] and the last
    [os.Stat] after it, started at time [t]; [polls] counts the calls of
    [os.Stat].  The result is whether the error is [nil], the time of the
    last [os.Stat] and the number of calls; [None] when [fuel] rounds were
    not enough. *)
Fixpoint waitForFile_loop (stat : Z → bool) (deadline : Z) (fuel : nat)
    (t : Z) (lag : list (N * N)) (polls : nat) : option (bool * Z * nat) :=
  match fuel with
  | O => None
  | S k =>
      if t <? deadline then
        if stat t then Some (true, t, S polls)
        else
          let '((a, b), rest) := next_lag lag in
          waitForFile_loop stat deadline k
            (t + Z.of_N a + pollInterval + Z.of_N b) rest (S polls)
      else Some (stat t, t, S polls)
  end.

(** Rounds that are always enough: the clock moves by [pollInterval] or
    more in each. *)
Definition rounds (timeout : Z) : nat :=
  Z.to_nat ((timeout + pollInterval - 1) / pollInterval).

(** [waitForFile(path, timeout)] called at time [t]. *)
Definition waitForFile (stat : Z → bool) (timeout : Z) (t : Z)
    (lag : list (N * N)) : option (bool * Z * nat) :=
  waitForFile_loop stat (t + timeout) (S (rounds timeout)) t lag 0.

End probe.

Module ProbeFacts.
Import probe.
Local Open Scope Z_scope.

Lemma loop_unfold stat deadline k t lag polls :
  waitForFile_loop stat deadline (S k) t lag polls
  = if t <? deadline then
      if stat t then Some (true, t, S polls)
      else waitForFile_loop stat deadline k
             (t + Z.of_N (next_lag lag).1.1 + pollInterval
              + Z.of_N (next_lag lag).1.2)
             (next_lag lag).2 (S polls)
    else Some (stat t, t, S polls).
Proof. simpl. by destruct (next_lag lag) as [[a b] rest]. Qed.

Lemma loop_spec stat deadline : ∀ k t lag polls,
  deadline - t ≤ Z.of_nat k * pollInterval →
  ∃ ok t' n,
    waitForFile_loop stat deadline (S k) t lag polls = Some (ok, t', n)
    ∧ ok = stat t' ∧ t ≤ t'
    ∧ (ok = false → deadline ≤ t')
    ∧ (polls < n ≤ polls + S k)%nat
    ∧ (stat t = true → t' = t ∧ n = S polls).
Proof.
  induction k as [|k IH]; intros t lag polls Hk.
  - simpl. destruct (t <? deadline) eqn:Hlt; [apply Z.ltb_lt in Hlt; lia|].
    apply Z.ltb_ge in Hlt.
    exists (stat t), t, (S polls). repeat split; auto; lia.
  - rewrite loop_unfold.
    destruct (t <? deadline) eqn:Hlt.
    + destruct (stat t) eqn:Hs.
      * exists true, t, (S polls). repeat split; auto; try lia; try discriminate.
      * destruct (next_lag lag) as [[a b] rest]. simpl fst. simpl snd.
        destruct (IH (t + Z.of_N a + pollInterval + Z.of_N b) rest (S polls))
          as (ok & t' & n & Hrun & Hok & Hle & Hlate & Hn & _).
        { unfold pollInterval in *. lia. }
        exists ok, t', n. rewrite Hrun.
        repeat split; auto; try lia; try discriminate.
        unfold pollInterval in *. lia.
    + apply Z.ltb_ge in Hlt.
      exists (stat t), t, (S polls). repeat split; auto; lia.
Qed.

Lemma rounds_enough timeout :
  timeout ≤ Z.of_nat (rounds timeout) * pollInterval.
Proof.
  unfold rounds, pollInterval.
  destruct (Z_le_gt_dec timeout 0) as [Hneg|Hpos]; [lia|].
  rewrite Z2Nat.id by (apply Z.div_pos; lia).
  pose proof (Z.mul_succ_div_gt (timeout + 100 * 1000000 - 1) (100 * 1000000)
                ltac:(lia)) as H.
  lia.
Qed.

End ProbeFacts.

Import probe.

(** X16: [waitForFile] always returns.  Its answer is that of its last
    [os.Stat]; a file that is there at the first look is reported at once;
    an error is reported only at or after the deadline; and [os.Stat] is
    called at most once per 100 ms of the timeout (rounded up) and once
    more. *)
Theorem waitForFile_returns
    (stat : Z → bool) (timeout t : Z) (lag : list (N * N)) :
  ∃ ok t' n,
    waitForFile stat timeout t lag = Some (ok, t', n)
    ∧ ok = stat t'
    ∧ (t ≤ t')%Z
    ∧ (ok = false → (t + timeout ≤ t')%Z)
    ∧ (1 ≤ n ≤ S (rounds timeout))%nat
    ∧ (stat t = true → t' = t ∧ n = 1%nat).
Proof.
  unfold waitForFile.
  destruct (ProbeFacts.loop_spec stat (t + timeout) (rounds timeout) t lag 0%nat)
    as (ok & t' & n & Hrun & Hok & Hle & Hlate & Hn & Hfirst).
  { pose proof (ProbeFacts.rounds_enough timeout). lia. }
  exists ok, t', n.
  split; [exact Hrun|]. split; [exact Hok|]. split; [exact Hle|].
  split; [exact Hlate|]. split; [lia | exact Hfirst].
Qed.

(** The call of [Watch]: two seconds, so at most 21 calls of [os.Stat]. *)
Example waitForFile_rounds_2s : rounds (2 * 1000000000) = 20%nat.
Proof. reflexivity. Qed.

(** A file that appears 250 ms after the first look is found at the
    fourth. *)
Example waitForFile_late_file :
  waitForFile (λ t, (250000000 <=? t)%Z) (2 * 1000000000) 0 []
  = Some (true, 300000000%Z, 4%nat).
Proof. vm_compute. reflexivity. Qed.

(** A file that never appears: 21 looks, the last one at the deadline. *)
Example waitForFile_never :
  waitForFile (λ _, false) (2 * 1000000000) 0 []
  = Some (false, 2000000000%Z, 21%nat).
Proof. vm_compute. reflexivity. Qed.
